(** * YOLOv3 detection post-processing: decode, suppress, annotate, frame loop

    A shallow embedding of the two cells of [YOLOv3_DetectObjectFromImage.ipynb]
    that turn the network's output rows into drawn boxes (the still-image cell
    and the live-video cell), with the properties of the decode-and-suppress
    stage stated over it.

    Conventions of the embedding:
    - numpy/Python floats are idealised as exact rationals ([Q]); the only
      float operations of the cells are products, one division by two, one
      subtraction and order comparisons;
    - Python's [int(f)] on a float is truncation toward zero ([Z.quot]);
    - a Python exception is the [Raise] branch of [Py.result];
    - the three lists [class_ids], [confidences], [boxes] that the cells grow
      in lock-step are kept as three lists, as in the source;
    - [cv2.dnn.NMSBoxes] is OpenCV's: the notebook holds only its two calls.
      Module [NMS] models it from section 4.2 of the specification;
    - the clock behind the FPS overlay and the pixels of the frame are left
      out; the drawing calls are kept as a list of [Draw] commands. *)

From Stdlib Require Import List ZArith QArith Bool Lia Arith Permutation Sorted.
From Stdlib Require String Ascii.
Import String.StringSyntax.
Delimit Scope string_scope with string.
From Equations Require Import Equations.
Import ListNotations.

Set Implicit Arguments.

(** ** Python values and exceptions *)

Module Py.

Inductive exn : Type :=
| ValueError      (* np.argmax of an empty sequence *)
| IndexError      (* list / ndarray index out of range *)
| AttributeError. (* attribute access on None *)

Inductive result (A : Type) : Type :=
| Ok (a : A)
| Raise (e : exn).

Arguments Ok {A} a.
Arguments Raise {A} e.

Definition bind {A B : Type} (m : result A) (k : A -> result B) : result B :=
  match m with
  | Ok a => k a
  | Raise e => Raise e
  end.

(** [l[i]] for a non-negative index. *)
Definition getitem {A : Type} (l : list A) (i : nat) : result A :=
  match nth_error l i with
  | Some a => Ok a
  | None => Raise IndexError
  end.

(** [int(q)]: truncation toward zero. *)
Definition int (q : Q) : Z := Z.quot (Qnum q) (Z.pos (Qden q)).

(** [a > b] and [a < b] on floats. *)
Definition gtb (a b : Q) : bool := negb (Qle_bool a b).
Definition ltb (a b : Q) : bool := negb (Qle_bool b a).

(** [np.argmax]: index of the first occurrence of the maximum. *)
Fixpoint argmax_from (best : Q) (besti i : nat) (l : list Q) : nat :=
  match l with
  | [] => besti
  | x :: l' =>
      if gtb x best then argmax_from x i (S i) l'
      else argmax_from best besti (S i) l'
  end.

Definition argmax (l : list Q) : result nat :=
  match l with
  | [] => Raise ValueError
  | x :: l' => Ok (argmax_from x 0 1 l')
  end.

End Py.

Import Py.

Notation "x <- m ;; k" := (Py.bind m (fun x => k))
  (at level 61, m at next level, right associativity).

(** ** Detection decoder (the [for out in outs: for detection in out:] loop) *)

(** [[x, y, w, h]]: top-left corner and extent, in pixels. *)
Record Box : Type := mkBox { box_x : Z; box_y : Z; box_w : Z; box_h : Z }.

(** The three accumulators of the cell. *)
Record Detections : Type := mkDetections {
  class_ids : list nat;
  confidences : list Q;
  boxes : list Box
}.

Definition no_detections : Detections := mkDetections [] [] [].

Definition append_detection (acc : Detections) (class_id : nat) (confidence : Q)
    (b : Box) : Detections :=
  mkDetections (class_ids acc ++ [class_id])
               (confidences acc ++ [confidence])
               (boxes acc ++ [b]).

(** [scores = detection[5:]]. *)
Definition scores_of (detection : list Q) : list Q := skipn 5 detection.

(** Lines 123-131: the pixel box of a row. *)
Definition box_of_values (width height : Z) (d0 d1 d2 d3 : Q) : Box :=
  let center_x := int (d0 * inject_Z width) in
  let center_y := int (d1 * inject_Z height) in
  let w := int (d2 * inject_Z width) in
  let h := int (d3 * inject_Z height) in
  let x := int (inject_Z center_x - inject_Z w / 2) in
  let y := int (inject_Z center_y - inject_Z h / 2) in
  mkBox x y w h.

(** The body of the inner loop; [thr] is the literal of the [if] (0.5 in the
    still-image cell, 0.2 in the video cell). *)
Definition decode_row (thr : Q) (width height : Z) (acc : Detections)
    (detection : list Q) : result Detections :=
  let scores := scores_of detection in
  class_id <- argmax scores ;;
  confidence <- getitem scores class_id ;;
  if gtb confidence thr then
    d0 <- getitem detection 0 ;;
    d1 <- getitem detection 1 ;;
    d2 <- getitem detection 2 ;;
    d3 <- getitem detection 3 ;;
    Ok (append_detection acc class_id confidence
          (box_of_values width height d0 d1 d2 d3))
  else Ok acc.

Fixpoint decode_out (thr : Q) (width height : Z) (acc : Detections)
    (out : list (list Q)) : result Detections :=
  match out with
  | [] => Ok acc
  | detection :: rest =>
      acc' <- decode_row thr width height acc detection ;;
      decode_out thr width height acc' rest
  end.

Fixpoint decode_outs (thr : Q) (width height : Z) (acc : Detections)
    (outs : list (list (list Q))) : result Detections :=
  match outs with
  | [] => Ok acc
  | out :: rest =>
      acc' <- decode_out thr width height acc out ;;
      decode_outs thr width height acc' rest
  end.

Definition decode (thr : Q) (width height : Z) (outs : list (list (list Q)))
    : result Detections :=
  decode_outs thr width height no_detections outs.

Definition decode_image := decode (1 # 2).
Definition decode_video := decode (1 # 5).

(** The confidence of a row: its score at the argmax. *)
Definition row_confidence (detection : list Q) : result Q :=
  class_id <- argmax (scores_of detection) ;;
  getitem (scores_of detection) class_id.

(** What the loop computes, as a filter followed by a map. *)
Definition accepted (thr : Q) (detection : list Q) : bool :=
  match row_confidence detection with
  | Ok c => gtb c thr
  | Raise _ => false
  end.

Definition row_class (detection : list Q) : nat :=
  match argmax (scores_of detection) with
  | Ok i => i
  | Raise _ => O
  end.

Definition row_conf (detection : list Q) : Q :=
  nth (row_class detection) (scores_of detection) 0.

Definition row_box (width height : Z) (detection : list Q) : Box :=
  box_of_values width height (nth 0 detection 0) (nth 1 detection 0)
                (nth 2 detection 0) (nth 3 detection 0).

(** The accumulators after the rows [rows] have all been appended. *)
Definition append_rows (width height : Z) (acc : Detections)
    (rows : list (list Q)) : Detections :=
  mkDetections (class_ids acc ++ map row_class rows)
               (confidences acc ++ map row_conf rows)
               (boxes acc ++ map (row_box width height) rows).

(** A row the loop can decode: it has at least one class score. *)
Definition well_formed_row (detection : list Q) : Prop :=
  (5 < length detection)%nat.

(** ** Non-max suppressor ([cv2.dnn.NMSBoxes]) *)

(** The spec's [Detection]: one entry of a [DetectionSet]. *)
Record Detection : Type := mkDetection {
  det_class : nat;
  det_conf : Q;
  det_box : Box
}.

(** The [DetectionSet] held by the three accumulators, entry by entry. *)
Fixpoint zip_detections (cs : list nat) (fs : list Q) (bs : list Box)
    : list Detection :=
  match cs, fs, bs with
  | c :: cs', f :: fs', b :: bs' => mkDetection c f b :: zip_detections cs' fs' bs'
  | _, _, _ => []
  end.

Definition detection_set (acc : Detections) : list Detection :=
  zip_detections (class_ids acc) (confidences acc) (boxes acc).

(** [enumerate(l)]. *)
Definition enumerate {A : Type} (l : list A) : list (nat * A) :=
  combine (seq 0 (length l)) l.

Module NMS.

(** Modelled from the spec: the area of a pixel rectangle, for the IoU of
    section 4.2 ([cv2.dnn.NMSBoxes] is OpenCV's, its body is not in the
    notebook). *)
Definition area (b : Box) : Z := (box_w b * box_h b)%Z.

(** Modelled from the spec: "a box with zero or negative width/height". *)
Definition degenerate (b : Box) : bool :=
  (box_w b <=? 0)%Z || (box_h b <=? 0)%Z.

(** Modelled from the spec: the length of the overlap of the intervals
    [lo1, lo1+len1) and [lo2, lo2+len2), one side of the intersection
    rectangle. *)
Definition overlap_1d (lo1 len1 lo2 len2 : Z) : Z :=
  Z.max 0 (Z.min (lo1 + len1) (lo2 + len2) - Z.max lo1 lo2).

(** Modelled from the spec: "intersection area". *)
Definition intersection_area (a b : Box) : Z :=
  (overlap_1d (box_x a) (box_w a) (box_x b) (box_w b)
   * overlap_1d (box_y a) (box_h a) (box_y b) (box_h b))%Z.

(** Modelled from the spec: "union area". *)
Definition union_area (a b : Box) : Z :=
  (area a + area b - intersection_area a b)%Z.

(** Modelled from the spec: the overlap measure of [cv2.dnn.NMSBoxes], whose
    body is OpenCV's and is not part of the notebook. Section 4.2: IoU is
    intersection area / union area of the pixel rectangles, and a box with
    zero or negative width/height has IoU 0 with everything. *)
Definition iou (a b : Box) : Q :=
  if degenerate a || degenerate b then 0
  else inject_Z (intersection_area a b) / inject_Z (union_area a b).

(** Modelled from the spec: a candidate of section 4.2, a detection's
    original index with its box and confidence. *)
Record Cand : Type := mkCand { idx : nat; cbox : Box; conf : Q }.

(** Modelled from the spec: the candidate of an enumerated argument pair. *)
Definition cand_of (p : nat * (Box * Q)) : Cand :=
  mkCand (fst p) (fst (snd p)) (snd (snd p)).

(** Modelled from the spec: the candidates of a call, [bboxes[i]] with
    [scores[i]], tagged with [i]. *)
Definition indexed (bs : list Box) (fs : list Q) : list Cand :=
  map cand_of (enumerate (combine bs fs)).

(** Modelled from the spec: step 1 of section 4.2, discard any detection
    with [confidence < scoreThreshold]. *)
Definition passes (s : Q) (c : Cand) : bool := negb (ltb (conf c) s).

(** Modelled from the spec: step 2 of section 4.2, sort by confidence
    descending, ties by original index ascending (a stable insertion sort:
    the candidate inserted has the smallest index and goes before its equals). *)
Fixpoint insert_desc (c : Cand) (l : list Cand) : list Cand :=
  match l with
  | [] => [c]
  | d :: l' =>
      if gtb (conf d) (conf c) then d :: insert_desc c l'
      else c :: d :: l'
  end.

(** Modelled from the spec: step 2 of section 4.2, the whole sort. *)
Fixpoint sort_desc (l : list Cand) : list Cand :=
  match l with
  | [] => []
  | c :: l' => insert_desc c (sort_desc l')
  end.

(** Modelled from the spec: step 3 of section 4.2, [d] stays when [c] is
    chosen unless its IoU with [c] exceeds [t]. *)
Definition survives (t : Q) (c d : Cand) : bool :=
  negb (gtb (iou (cbox c) (cbox d)) t).

(** Modelled from the spec: steps 3 and 4 of section 4.2, repeatedly take
    the highest-confidence remaining candidate, retain it, and remove every
    other remaining candidate whose IoU with it exceeds [overlapThreshold],
    until no candidate remains. *)
Equations? greedy (t : Q) (cands : list Cand) : list Cand
    by wf (length cands) lt :=
  greedy t [] := [];
  greedy t (c :: rest) := c :: greedy t (filter (survives t c) rest).
Proof.
  pose proof (filter_length_le (survives t c) rest). simpl. lia.
Qed.

(** Modelled from the spec: [cv2.dnn.NMSBoxes(bboxes, scores,
    score_threshold, nms_threshold)], the suppressor of section 4.2; it
    returns the retained indices, highest confidence first. *)
Definition NMSBoxes (bboxes : list Box) (scores : list Q)
    (score_threshold nms_threshold : Q) : list nat :=
  map idx (greedy nms_threshold
             (sort_desc (filter (passes score_threshold)
                                (indexed bboxes scores)))).

End NMS.

Import NMS.

(** The suppressor on a [DetectionSet], as the cells call it: only the boxes
    and the confidences are handed to [NMSBoxes]. *)
Definition Suppressor (ds : list Detection) (scoreThreshold overlapThreshold : Q)
    : list nat :=
  NMSBoxes (map det_box ds) (map det_conf ds) scoreThreshold overlapThreshold.

(** The order of the sorted candidates: higher confidence first, and among
    equal confidences lower index first. *)
Definition precedes (c d : Cand) : Prop :=
  conf d < conf c \/ (conf d == conf c /\ (idx c < idx d)%nat).

(** The candidate of an enumerated detection. *)
Definition cand_of_det (p : nat * Detection) : Cand :=
  mkCand (fst p) (det_box (snd p)) (det_conf (snd p)).

(** The candidates the greedy loop starts from. *)
Definition sorted_candidates (ds : list Detection) (s : Q) : list Cand :=
  sort_desc (filter (passes s)
               (indexed (map det_box ds) (map det_conf ds))).

(** Line 138 and line 207. *)
Definition indexes_image (acc : Detections) : list nat :=
  NMSBoxes (boxes acc) (confidences acc) (4 # 10) (6 # 10).
Definition indexes_video (acc : Detections) : list nat :=
  NMSBoxes (boxes acc) (confidences acc) (8 # 10) (3 # 10).

(** [i in indexes]. *)
Definition mem (i : nat) (indexes : list nat) : bool :=
  existsb (Nat.eqb i) indexes.

(** The detections at the positions found in [indexes], in the order of [ds]:
    [[d for i, d in enumerate(ds) if i in indexes]]. *)
Definition restrict (ds : list Detection) (indexes : list nat) : list Detection :=
  map snd (filter (fun p => mem (fst p) indexes) (enumerate ds)).

(** ** Annotator (the [for i in range(len(boxes)):] loops) *)

Definition Color : Type := (Q * Q * Q)%type.

Inductive Draw : Type :=
| Rectangle (x1 y1 x2 y2 : Z) (color : Color)
| PutText (label : String.string) (x y : Z).

(** One turn of the still-image loop (lines 143-148): the colour is looked up
    by the detection's index [i]. *)
Definition annotate_image_step (classes : list String.string) (colors : list Color)
    (acc : Detections) (indexes : list nat) (img : list Draw) (i : nat)
    : result (list Draw) :=
  if mem i indexes then
    b <- getitem (boxes acc) i ;;
    class_id <- getitem (class_ids acc) i ;;
    label <- getitem classes class_id ;;
    color <- getitem colors i ;;
    Ok (img ++ [Rectangle (box_x b) (box_y b)
                          (box_x b + box_w b) (box_y b + box_h b) color;
                PutText label (box_x b) (box_y b + 30)])
  else Ok img.

(** One turn of the video loop (lines 210-216): the colour is looked up by
    [class_ids[i]]. *)
Definition annotate_video_step (classes : list String.string) (colors : list Color)
    (acc : Detections) (indexes : list nat) (img : list Draw) (i : nat)
    : result (list Draw) :=
  if mem i indexes then
    b <- getitem (boxes acc) i ;;
    class_id <- getitem (class_ids acc) i ;;
    label <- getitem classes class_id ;;
    _ <- getitem (confidences acc) i ;;
    color <- getitem colors class_id ;;
    Ok (img ++ [Rectangle (box_x b) (box_y b)
                          (box_x b + box_w b) (box_y b + box_h b) color;
                PutText label (box_x b) (box_y b + 30)])
  else Ok img.

Fixpoint for_range (step : list Draw -> nat -> result (list Draw))
    (img : list Draw) (range : list nat) : result (list Draw) :=
  match range with
  | [] => Ok img
  | i :: rest => img' <- step img i ;; for_range step img' rest
  end.

Definition annotate_image (classes : list String.string) (colors : list Color)
    (acc : Detections) (indexes : list nat) : result (list Draw) :=
  for_range (annotate_image_step classes colors acc indexes) []
            (seq 0 (length (boxes acc))).

Definition annotate_video (classes : list String.string) (colors : list Color)
    (acc : Detections) (indexes : list nat) : result (list Draw) :=
  for_range (annotate_video_step classes colors acc indexes) []
            (seq 0 (length (boxes acc))).

(** The still-image cell from the network's output on: decode with 0.5,
    suppress with (0.4, 0.6), annotate. *)
Definition image_cell (classes : list String.string) (colors : list Color)
    (width height : Z) (outs : list (list (list Q))) : result (list Draw) :=
  acc <- decode_image width height outs ;;
  annotate_image classes colors acc (indexes_image acc).

(** ** Frame processing loop (the [while True:] of the video cell) *)

(** What the outside world hands to one turn of the loop: the frame returned
    by [cap.read()] ([None] when the capture fails), the rows returned by
    [net.forward] for it, and the key returned by [cv2.waitKey(1)]. *)
Record Frame : Type := mkFrame {
  frame_height : Z;
  frame_width : Z;
  frame_outs : list (list (list Q))
}.

Record Tick : Type := mkTick {
  tick_frame : option Frame;
  tick_key : Z
}.

(** Calls on the capture handle and the display surface, in program order. *)
Inductive Event : Type :=
| CapRead
| ImShow
| WaitKey
| CapRelease
| DestroyAllWindows.

Inductive Status : Type :=
| Running            (* the supplied ticks are used up, the loop goes on *)
| Stopped            (* [break], then the two teardown calls *)
| Crashed (e : exn). (* an exception left the cell *)

Record Run : Type := mkRun {
  run_status : Status;
  run_frame_id : nat;
  run_events : list Event
}.

Definition ESC : Z := 27.

(** Lines 176-216 of one turn: shape of the frame, decode with 0.2, suppress
    with (0.8, 0.3), annotate. *)
Definition process_frame (classes : list String.string) (colors : list Color)
    (frame : option Frame) : result (list Draw) :=
  match frame with
  | None => Raise AttributeError
  | Some f =>
      acc <- decode_video (frame_width f) (frame_height f) (frame_outs f) ;;
      annotate_video classes colors acc (indexes_video acc)
  end.

Fixpoint video_loop (classes : list String.string) (colors : list Color)
    (ticks : list Tick) (frame_id : nat) (events : list Event) : Run :=
  match ticks with
  | [] => mkRun Running frame_id events
  | tk :: rest =>
      let events := events ++ [CapRead] in
      let frame_id := S frame_id in
      match process_frame classes colors (tick_frame tk) with
      | Raise e => mkRun (Crashed e) frame_id events
      | Ok _ =>
          let events := events ++ [ImShow; WaitKey] in
          if (tick_key tk =? ESC)%Z
          then mkRun Stopped frame_id (events ++ [CapRelease; DestroyAllWindows])
          else video_loop classes colors rest frame_id events
      end
  end.

(** The video cell from [cap = cv2.VideoCapture(0)] on. *)
Definition video_cell (classes : list String.string) (colors : list Color)
    (ticks : list Tick) : Run :=
  video_loop classes colors ticks 0 [].

Definition event_eqb (a b : Event) : bool :=
  match a, b with
  | CapRead, CapRead | ImShow, ImShow | WaitKey, WaitKey
  | CapRelease, CapRelease | DestroyAllWindows, DestroyAllWindows => true
  | _, _ => false
  end.

Definition count_event (e : Event) (events : list Event) : nat :=
  length (filter (event_eqb e) events).

(** The calls of [n] turns that neither raise nor see the stop key. *)
Fixpoint turns (n : nat) : list Event :=
  match n with
  | O => []
  | S n' => [CapRead; ImShow; WaitKey] ++ turns n'
  end.

(** A turn that runs to its [waitKey] without raising. *)
Definition completes (classes : list String.string) (colors : list Color) (tk : Tick)
    : bool :=
  match process_frame classes colors (tick_frame tk) with
  | Ok _ => true
  | Raise _ => false
  end.

Definition exited (r : Run) : bool :=
  match run_status r with
  | Running => false
  | _ => true
  end.

(** ** Session set-up (lines 29-42): class names and output layers *)

(** [str.isspace] on one character, for code points below 256: the controls
    9-13 and 28-31, the space, NEL (133) and the no-break space (160). *)
Definition isspace (c : Ascii.ascii) : bool :=
  let n := Ascii.nat_of_ascii c in
  ((9 <=? n) && (n <=? 13) || (28 <=? n) && (n <=? 32)
   || (n =? 133) || (n =? 160))%nat.

Fixpoint lstrip (s : String.string) : String.string :=
  match s with
  | String.EmptyString => String.EmptyString
  | String.String c s' => if isspace c then lstrip s' else s
  end.

Fixpoint rstrip (s : String.string) : String.string :=
  match s with
  | String.EmptyString => String.EmptyString
  | String.String c s' =>
      match rstrip s' with
      | String.EmptyString =>
          if isspace c then String.EmptyString
          else String.String c String.EmptyString
      | r => String.String c r
      end
  end.

(** [line.strip()]. *)
Definition strip (s : String.string) : String.string := rstrip (lstrip s).

(** Line 32: [classes = [line.strip() for line in f.readlines()]]; [lines] is
    what [f.readlines()] returned. *)
Definition load_classes (lines : list String.string) : list String.string :=
  map strip lines.

(** [l[k]] for a Python list and any integer [k]: a negative index counts
    from the end. *)
Definition getitem_z {A : Type} (l : list A) (k : Z) : result A :=
  let n := Z.of_nat (length l) in
  if (0 <=? k)%Z then getitem l (Z.to_nat k)
  else if (- n <=? k)%Z then getitem l (Z.to_nat (n + k))
  else Raise IndexError.

(** A list comprehension whose element expression may raise. *)
Fixpoint comprehension {A B : Type} (f : A -> result B) (l : list A)
    : result (list B) :=
  match l with
  | [] => Ok []
  | a :: l' => b <- f a ;; bs <- comprehension f l' ;; Ok (b :: bs)
  end.

(** Line 42: [[layer_names[i[0] - 1] for i in net.getUnconnectedOutLayers()]];
    [unconnected] is what [getUnconnectedOutLayers()] returned, one array of
    layer ids per entry. *)
Definition output_layers (layer_names : list String.string)
    (unconnected : list (list Z)) : result (list String.string) :=
  comprehension
    (fun i => i0 <- getitem i 0 ;; getitem_z layer_names (i0 - 1)%Z)
    unconnected.

(** ** Notions used to state what the cells compute *)

(** The detection a row stands for. *)
Definition detection_of_row (width height : Z) (row : list Q) : Detection :=
  mkDetection (row_class row) (row_conf row) (row_box width height row).

(** The positions the annotation loops act on: [i in range(n)] with
    [i in indexes]. *)
Definition visible (indexes : list nat) (n : nat) : list nat :=
  filter (fun i => mem i indexes) (seq 0 n).

(** The two drawing calls made for one detection. *)
Definition drawing (b : Box) (label : String.string) (color : Color)
    : list Draw :=
  [Rectangle (box_x b) (box_y b) (box_x b + box_w b) (box_y b + box_h b) color;
   PutText label (box_x b) (box_y b + 30)].

Definition default_box : Box := mkBox 0 0 0 0.
Definition default_color : Color := (0, 0, 0).

(** What the still-image loop draws at position [i], and what the video loop
    draws there. *)
Definition image_drawing (classes : list String.string) (colors : list Color)
    (acc : Detections) (i : nat) : list Draw :=
  drawing (nth i (boxes acc) default_box)
          (nth (nth i (class_ids acc) O) classes String.EmptyString)
          (nth i colors default_color).

Definition video_drawing (classes : list String.string) (colors : list Color)
    (acc : Detections) (i : nat) : list Draw :=
  drawing (nth i (boxes acc) default_box)
          (nth (nth i (class_ids acc) O) classes String.EmptyString)
          (nth (nth i (class_ids acc) O) colors default_color).

(** The accumulators are in lock-step and every class id names a class. *)
Definition valid_detections (classes : list String.string) (acc : Detections)
    : Prop :=
  length (class_ids acc) = length (boxes acc) /\
  length (confidences acc) = length (boxes acc) /\
  Forall (fun k => (k < length classes)%nat) (class_ids acc).

(** A turn of the video loop that neither raises nor sees the stop key. *)
Definition quiet (classes : list String.string) (colors : list Color)
    (tk : Tick) : Prop :=
  completes classes colors tk = true /\ tick_key tk <> ESC.

(** Whether a string starts, or ends, with a whitespace character. *)
Definition starts_with_space (s : String.string) : bool :=
  match s with
  | String.EmptyString => false
  | String.String c _ => isspace c
  end.

Fixpoint ends_with_space (s : String.string) : bool :=
  match s with
  | String.EmptyString => false
  | String.String c String.EmptyString => isspace c
  | String.String _ s' => ends_with_space s'
  end.

(** A layer id that [layer_names[id - 1]] accepts for [n] names: the ids 1
    to [n], and, through Python's negative indexes, the ids [1 - n] to 0. *)
Definition accepted_layer_id (n : nat) (id : Z) : Prop :=
  (1 - Z.of_nat n <= id <= Z.of_nat n)%Z.

(** ** Decoder lemmas *)

Lemma gtb_true_iff (a b : Q) : gtb a b = true <-> b < a.
Proof.
  unfold gtb. rewrite negb_true_iff.
  split.
  - intros H. apply Qnot_le_lt. intros Hle.
    apply Qle_bool_iff in Hle. congruence.
  - intros H. destruct (Qle_bool a b) eqn:E; [|reflexivity].
    apply Qle_bool_iff in E. exfalso. exact (Qlt_not_le _ _ H E).
Qed.

Lemma gtb_false_iff (a b : Q) : gtb a b = false <-> a <= b.
Proof.
  unfold gtb. rewrite negb_false_iff. apply Qle_bool_iff.
Qed.

Lemma ltb_true_iff (a b : Q) : ltb a b = true <-> a < b.
Proof. unfold ltb. apply (gtb_true_iff b a). Qed.

Lemma ltb_false_iff (a b : Q) : ltb a b = false <-> b <= a.
Proof. unfold ltb. apply (gtb_false_iff b a). Qed.

Lemma argmax_from_bound (l : list Q) :
  forall best besti i, (besti < i)%nat ->
    (argmax_from best besti i l < i + length l)%nat.
Proof.
  induction l as [|x l IH]; intros best besti i Hlt; simpl.
  - lia.
  - destruct (gtb x best).
    + specialize (IH x i (S i)). lia.
    + specialize (IH best besti (S i)). lia.
Qed.

Lemma argmax_in_range (l : list Q) (i : nat) :
  argmax l = Ok i -> (i < length l)%nat.
Proof.
  destruct l as [|x l]; simpl; [discriminate|].
  intros H. injection H as <-.
  pose proof (argmax_from_bound l x (besti := 0) (i := 1)). lia.
Qed.

Lemma well_formed_scores (detection : list Q) :
  well_formed_row detection -> scores_of detection <> [].
Proof.
  unfold well_formed_row, scores_of. intros H E.
  apply (f_equal (@length Q)) in E. rewrite length_skipn in E. simpl in E. lia.
Qed.

Lemma scores_nonempty_well_formed (detection : list Q) :
  scores_of detection <> [] -> well_formed_row detection.
Proof.
  unfold well_formed_row, scores_of. intros H.
  destruct (Nat.lt_ge_cases 5 (length detection)) as [Hlt|Hge]; [exact Hlt|].
  exfalso. apply H. apply skipn_all2. exact Hge.
Qed.

Lemma row_confidence_well_formed (detection : list Q) :
  well_formed_row detection ->
  row_confidence detection = Ok (row_conf detection).
Proof.
  intros Hwf. unfold row_confidence, row_conf, row_class.
  destruct (argmax (scores_of detection)) as [i|e] eqn:E.
  - simpl. unfold getitem.
    pose proof (argmax_in_range _ E) as Hi.
    destruct (nth_error (scores_of detection) i) as [c|] eqn:En.
    + rewrite (nth_error_nth _ _ 0 En). reflexivity.
    + apply nth_error_None in En. lia.
  - exfalso. apply (well_formed_scores Hwf).
    destruct (scores_of detection); [reflexivity|discriminate].
Qed.

Lemma getitem_well_formed (detection : list Q) (k : nat) :
  well_formed_row detection -> (k <= 5)%nat ->
  getitem detection k = Ok (nth k detection 0).
Proof.
  unfold well_formed_row, getitem. intros Hwf Hk.
  destruct (nth_error detection k) as [c|] eqn:En.
  - rewrite (nth_error_nth _ _ 0 En). reflexivity.
  - apply nth_error_None in En. lia.
Qed.

(** One row, by cases: an ill-formed row raises, an accepted row appends its
    detection, any other row leaves the accumulators as they are. *)
Lemma decode_row_cases (thr : Q) (width height : Z) (acc : Detections)
    (detection : list Q) :
  decode_row thr width height acc detection =
    match scores_of detection with
    | [] => Raise ValueError
    | _ :: _ =>
        if accepted thr detection
        then Ok (append_detection acc (row_class detection)
                   (row_conf detection) (row_box width height detection))
        else Ok acc
    end.
Proof.
  destruct (scores_of detection) as [|s ss] eqn:Es.
  - unfold decode_row. rewrite Es. reflexivity.
  - assert (Hwf : well_formed_row detection).
    { apply scores_nonempty_well_formed. rewrite Es. discriminate. }
    pose proof (row_confidence_well_formed Hwf) as Hc.
    unfold accepted. rewrite Hc.
    unfold decode_row.
    unfold row_confidence in Hc.
    unfold row_conf in *. unfold row_class in *.
    destruct (argmax (scores_of detection)) as [i|e] eqn:Ea.
    + simpl in Hc |- *. rewrite Hc. simpl.
      destruct (gtb _ thr); [|reflexivity].
      rewrite !getitem_well_formed by (assumption || lia).
      reflexivity.
    + simpl in Hc. discriminate.
Qed.

Lemma append_rows_nil (width height : Z) (acc : Detections) :
  append_rows width height acc [] = acc.
Proof.
  destruct acc as [cs fs bs]. unfold append_rows. simpl.
  rewrite !app_nil_r. reflexivity.
Qed.

Lemma append_rows_cons (width height : Z) (acc : Detections) (row : list Q)
    (rows : list (list Q)) :
  append_rows width height
    (append_detection acc (row_class row) (row_conf row)
       (row_box width height row)) rows
  = append_rows width height acc (row :: rows).
Proof.
  unfold append_rows, append_detection. simpl.
  rewrite <- !app_assoc. reflexivity.
Qed.

(** The inner loop returns exactly when every row has a score, and then it
    has appended the accepted rows, in order. *)
Lemma decode_out_spec (thr : Q) (width height : Z) (out : list (list Q)) :
  forall acc,
    Forall well_formed_row out ->
    decode_out thr width height acc out
    = Ok (append_rows width height acc (filter (accepted thr) out)).
Proof.
  induction out as [|row out IH]; intros acc Hwf; simpl.
  - rewrite append_rows_nil. reflexivity.
  - inversion Hwf as [|? ? Hrow Hout]; subst.
    rewrite decode_row_cases.
    pose proof (well_formed_scores Hrow) as Hne.
    destruct (scores_of row) as [|s ss]; [contradiction|].
    destruct (accepted thr row); simpl.
    + rewrite IH by assumption. rewrite append_rows_cons. reflexivity.
    + apply IH. assumption.
Qed.

Lemma decode_out_returns (thr : Q) (width height : Z) (out : list (list Q)) :
  forall acc acc',
    decode_out thr width height acc out = Ok acc' ->
    Forall well_formed_row out.
Proof.
  induction out as [|row out IH]; intros acc acc' H; simpl in H.
  - constructor.
  - rewrite decode_row_cases in H.
    destruct (scores_of row) as [|s ss] eqn:Es; [discriminate|].
    constructor.
    + apply scores_nonempty_well_formed. rewrite Es. discriminate.
    + destruct (accepted thr row); simpl in H; eapply IH; exact H.
Qed.

Lemma decode_outs_spec (thr : Q) (width height : Z)
    (outs : list (list (list Q))) :
  forall acc,
    Forall (Forall well_formed_row) outs ->
    decode_outs thr width height acc outs
    = Ok (append_rows width height acc (filter (accepted thr) (concat outs))).
Proof.
  induction outs as [|out outs IH]; intros acc Hwf; simpl.
  - rewrite append_rows_nil. reflexivity.
  - inversion Hwf as [|? ? Hout Houts]; subst.
    rewrite decode_out_spec by assumption. simpl.
    rewrite IH by assumption.
    rewrite filter_app. unfold append_rows. simpl.
    rewrite !map_app, !app_assoc. reflexivity.
Qed.

Lemma decode_outs_returns (thr : Q) (width height : Z)
    (outs : list (list (list Q))) :
  forall acc acc',
    decode_outs thr width height acc outs = Ok acc' ->
    Forall (Forall well_formed_row) outs.
Proof.
  induction outs as [|out outs IH]; intros acc acc' H; simpl in H.
  - constructor.
  - destruct (decode_out thr width height acc out) as [acc1|e] eqn:E;
      simpl in H; [|discriminate].
    constructor.
    + eapply decode_out_returns. exact E.
    + eapply IH. exact H.
Qed.

(** The decoder is total on well-formed rows. *)
Lemma decode_total (thr : Q) (width height : Z) (outs : list (list (list Q))) :
  Forall (Forall well_formed_row) outs ->
  decode thr width height outs
  = Ok (append_rows width height no_detections
          (filter (accepted thr) (concat outs))).
Proof. apply decode_outs_spec. Qed.

Lemma accepted_conf (thr : Q) (row : list Q) :
  accepted thr row = true -> thr < row_conf row.
Proof.
  unfold accepted. intros H.
  destruct (row_confidence row) as [c|e] eqn:E; [|discriminate].
  assert (Hwf : well_formed_row row).
  { apply scores_nonempty_well_formed. intros Hs.
    unfold row_confidence in E. rewrite Hs in E. discriminate. }
  rewrite (row_confidence_well_formed Hwf) in E. injection E as <-.
  apply gtb_true_iff. exact H.
Qed.

Lemma low_confidence_rejected (thr : Q) (row : list Q) :
  well_formed_row row -> row_conf row <= thr -> accepted thr row = false.
Proof.
  intros Hwf Hle. unfold accepted.
  rewrite (row_confidence_well_formed Hwf).
  apply gtb_false_iff. exact Hle.
Qed.

(** [np.argmax] picks a maximal entry. *)
Lemma argmax_from_spec (l : list Q) :
  forall pre best besti i,
    length pre = i -> (besti < i)%nat -> nth besti pre 0 = best ->
    best <= nth (argmax_from best besti i l) (pre ++ l) 0 /\
    Forall (fun x => x <= nth (argmax_from best besti i l) (pre ++ l) 0) l.
Proof.
  induction l as [|x l IH]; intros pre best besti i Hlen Hlt Hbest; simpl.
  - rewrite app_nil_r, Hbest. split; [apply Qle_refl|constructor].
  - assert (Hpre : pre ++ x :: l = (pre ++ [x]) ++ l)
      by (rewrite <- app_assoc; reflexivity).
    rewrite Hpre.
    destruct (gtb x best) eqn:E.
    + apply gtb_true_iff in E.
      destruct (IH (pre ++ [x]) x i (S i)) as [H1 H2].
      * rewrite length_app. simpl. lia.
      * lia.
      * rewrite app_nth2 by lia. rewrite Hlen, Nat.sub_diag. reflexivity.
      * split.
        -- eapply Qle_trans; [apply Qlt_le_weak; exact E|exact H1].
        -- constructor; assumption.
    + apply gtb_false_iff in E.
      destruct (IH (pre ++ [x]) best besti (S i)) as [H1 H2].
      * rewrite length_app. simpl. lia.
      * lia.
      * rewrite app_nth1 by lia. exact Hbest.
      * split; [exact H1|].
        constructor; [|assumption].
        eapply Qle_trans; [exact E|exact H1].
Qed.

(** The confidence of a row is its maximum class score. *)
Lemma row_conf_is_max (row : list Q) :
  Forall (fun s => s <= row_conf row) (scores_of row).
Proof.
  unfold row_conf, row_class.
  destruct (scores_of row) as [|x l]; [constructor|].
  simpl argmax. cbv iota beta.
  destruct (@argmax_from_spec l [x] x 0%nat 1%nat) as [H1 H2];
    [reflexivity|lia|reflexivity|].
  constructor; assumption.
Qed.

(** [int] on a non-negative value is the integer below it. *)
Lemma int_band (q : Q) (n : Z) :
  (0 <= n)%Z -> inject_Z n <= q -> q < inject_Z (n + 1) -> int q = n.
Proof.
  destruct q as [a b]. unfold Qle, Qlt, int. simpl.
  intros Hn Hlo Hhi.
  rewrite Z.quot_div_nonneg by lia.
  symmetry. apply (Z.div_unique a (Z.pos b) n (a - Z.pos b * n)); lia.
Qed.

(** The box of the example row does not depend on how the four products are
    rounded, as long as each stays between the same two integers. *)
Lemma box_of_values_band (d0 d1 d2 d3 : Q) :
  208 <= d0 * 416 -> d0 * 416 < 209 ->
  208 <= d1 * 416 -> d1 * 416 < 209 ->
  83 <= d2 * 416 -> d2 * 416 < 84 ->
  124 <= d3 * 416 -> d3 * 416 < 125 ->
  box_of_values 416 416 d0 d1 d2 d3 = mkBox 166 146 83 124.
Proof.
  intros H0 H0' H1 H1' H2 H2' H3 H3'.
  unfold box_of_values.
  change (inject_Z 416) with (416 : Q).
  rewrite (@int_band (d0 * 416) 208), (@int_band (d1 * 416) 208),
    (@int_band (d2 * 416) 83), (@int_band (d3 * 416) 124);
    try assumption; try lia.
  reflexivity.
Qed.

(** ** Decoder theorems *)

(** C2. Whatever the rows and the confidence threshold, when the decode loop
    returns, its three lists hold exactly the accepted rows in order; a row
    whose maximum class score is at most the threshold is not among them, and
    every confidence emitted is strictly greater than the threshold. *)
Theorem decoder_excludes_low_confidence (thr : Q) (width height : Z)
    (outs : list (list (list Q))) (acc : Detections) :
  decode thr width height outs = Ok acc ->
  let kept := filter (accepted thr) (concat outs) in
  class_ids acc = map row_class kept /\
  confidences acc = map row_conf kept /\
  boxes acc = map (row_box width height) kept /\
  (forall row, In row (concat outs) ->
     Forall (fun s => s <= row_conf row) (scores_of row) /\
     (row_conf row <= thr -> ~ In row kept)) /\
  Forall (fun c => thr < c) (confidences acc).
Proof.
  intros H kept.
  pose proof (decode_outs_returns _ _ _ _ _ H) as Hwf.
  unfold decode in H. rewrite (decode_outs_spec thr width height no_detections Hwf) in H.
  injection H as <-. simpl. fold kept.
  repeat split; try reflexivity.
  - apply row_conf_is_max.
  - intros Hle Hin. unfold kept in Hin. apply filter_In in Hin.
    destruct Hin as [_ Hacc]. apply accepted_conf in Hacc.
    exact (Qlt_not_le _ _ Hacc Hle).
  - apply Forall_forall. intros c Hc. apply in_map_iff in Hc.
    destruct Hc as [row [<- Hrow]]. unfold kept in Hrow.
    apply filter_In in Hrow. apply accepted_conf. apply Hrow.
Qed.

(** Two rows, the first at the threshold 0.5 and the second above it: only
    the second is emitted. *)
Lemma decoder_excludes_low_confidence_witness :
  let outs := [[[1 # 2; 1 # 2; 2 # 10; 3 # 10; 1; 1 # 2; 1 # 10];
                [1 # 4; 1 # 4; 1 # 10; 1 # 10; 1; 2 # 10; 7 # 10]]] in
  let acc := mkDetections [1%nat] [7 # 10] [mkBox 83 83 41 41] in
  decode_image 416 416 outs = Ok acc /\
  Forall (fun c => (1 # 2) < c) (confidences acc).
Proof.
  intros outs acc.
  assert (H : decode (1 # 2) 416 416 outs = Ok acc) by reflexivity.
  split; [exact H|].
  apply (decoder_excludes_low_confidence _ _ _ _ H).
Defined.

(** C3. A row with cx = cy = 0.5, w = 0.2, h = 0.3 on a 416 x 416 frame, once
    accepted, is appended with the box whose top-left corner is (166, 146) and
    whose extent is (83, 124): every float-to-int conversion truncates. *)
Theorem decode_example_box (thr : Q) (acc : Detections) (rest : list Q) :
  let row := (1 # 2) :: (1 # 2) :: (2 # 10) :: (3 # 10) :: rest in
  accepted thr row = true ->
  decode_row thr 416 416 acc row
  = Ok (append_detection acc (row_class row) (row_conf row)
          (mkBox 166 146 83 124)).
Proof.
  intros row Hacc.
  rewrite decode_row_cases, Hacc.
  destruct (scores_of row) as [|s ss] eqn:Es.
  - unfold accepted, row_confidence in Hacc. rewrite Es in Hacc. discriminate.
  - reflexivity.
Qed.

Lemma decode_example_box_witness :
  decode_row (1 # 2) 416 416 no_detections
    [1 # 2; 1 # 2; 2 # 10; 3 # 10; 1; 1 # 10; 9 # 10]
  = Ok (mkDetections [1%nat] [9 # 10] [mkBox 166 146 83 124]).
Proof.
  apply (@decode_example_box (1 # 2) no_detections [1; 1 # 10; 9 # 10]).
  reflexivity.
Defined.

(** C8, as the notebook has it. The decode loop never looks at the class
    list: a row whose number of scores differs from the number of class names
    is decoded like any other row. With at least one score it is appended when
    its confidence exceeds the threshold and skipped otherwise; with no score
    at all the loop stops on the [ValueError] of [np.argmax]. *)
Theorem decode_row_ignores_class_list (classes : list String.string) (thr : Q)
    (width height : Z) (acc : Detections) (row : list Q) :
  length (scores_of row) <> length classes ->
  (scores_of row = [] ->
     decode_row thr width height acc row = Raise ValueError) /\
  (scores_of row <> [] -> accepted thr row = true ->
     decode_row thr width height acc row
     = Ok (append_detection acc (row_class row) (row_conf row)
             (row_box width height row))) /\
  (scores_of row <> [] -> accepted thr row = false ->
     decode_row thr width height acc row = Ok acc).
Proof.
  intros _. rewrite decode_row_cases.
  destruct (scores_of row) as [|s ss].
  - split; [reflexivity|]. split; intros Hne; contradiction.
  - split; [discriminate|].
    split; intros _ ->; reflexivity.
Qed.

Lemma decode_row_ignores_class_list_witness :
  let classes := ["person"; "bicycle"; "car"]%string in
  let row := [1 # 2; 1 # 2; 2 # 10; 3 # 10; 1; 1 # 10; 9 # 10] in
  length (scores_of row) <> length classes /\
  decode_row (1 # 2) 416 416 no_detections row
  = Ok (mkDetections [1%nat] [9 # 10] [mkBox 166 146 83 124]).
Proof.
  intros classes row.
  assert (Hlen : length (scores_of row) <> length classes)
    by (simpl; discriminate).
  split; [exact Hlen|].
  destruct (@decode_row_ignores_class_list classes (1 # 2) 416 416
              no_detections row Hlen) as [_ [H _]].
  apply H; [discriminate|reflexivity].
Defined.

(** C8, as the specification words it, fails: with three class names, a row
    carrying two scores is turned into a detection, and a row carrying four
    low scores is skipped without any error. *)
Lemma decoder_shape_mismatch_counterexample :
  let classes := ["person"; "bicycle"; "car"]%string in
  let short := [1 # 2; 1 # 2; 2 # 10; 3 # 10; 1; 1 # 10; 9 # 10] in
  let long := [1 # 2; 1 # 2; 2 # 10; 3 # 10; 1; 1 # 10; 1 # 10; 0; 2 # 10] in
  length (scores_of short) <> length classes /\
  decode_row (1 # 2) 416 416 no_detections short
  = Ok (mkDetections [1%nat] [9 # 10] [mkBox 166 146 83 124]) /\
  length (scores_of long) <> length classes /\
  decode_row (1 # 2) 416 416 no_detections long = Ok no_detections.
Proof.
  simpl. repeat split; discriminate.
Qed.

(** ** Lists with positions *)

Lemma in_enum_from {A : Type} (l : list A) :
  forall k i x,
    In (i, x) (combine (seq k (length l)) l) <->
    (k <= i)%nat /\ nth_error l (i - k) = Some x.
Proof.
  induction l as [|a l IH]; intros k i x; simpl.
  - split; [contradiction|]. intros [_ H].
    destruct (i - k)%nat; discriminate.
  - rewrite IH. split.
    + intros [H|[Hle Hn]].
      * injection H as <- <-. rewrite Nat.sub_diag. split; [lia|reflexivity].
      * split; [lia|].
        replace (i - k)%nat with (S (i - S k)) by lia. exact Hn.
    + intros [Hle Hn].
      destruct (Nat.eq_dec i k) as [->|Hne].
      * rewrite Nat.sub_diag in Hn. simpl in Hn. injection Hn as <-.
        left. reflexivity.
      * right. split; [lia|].
        replace (i - k)%nat with (S (i - S k)) in Hn by lia. exact Hn.
Qed.

Lemma in_enumerate {A : Type} (l : list A) (i : nat) (x : A) :
  In (i, x) (enumerate l) <-> nth_error l i = Some x.
Proof.
  unfold enumerate. rewrite in_enum_from, Nat.sub_0_r.
  split; [intros [_ H]; exact H|intros H; split; [lia|exact H]].
Qed.

Lemma enum_from_fst {A : Type} (l : list A) :
  forall k, map fst (combine (seq k (length l)) l) = seq k (length l).
Proof.
  induction l as [|a l IH]; intros k; simpl; [reflexivity|].
  rewrite IH. reflexivity.
Qed.

Lemma enumerate_fst {A : Type} (l : list A) :
  map fst (enumerate l) = seq 0 (length l).
Proof. apply enum_from_fst. Qed.

Lemma enumerate_snd {A : Type} (l : list A) : map snd (enumerate l) = l.
Proof.
  unfold enumerate. generalize 0%nat.
  induction l as [|a l IH]; intros k; simpl; [reflexivity|].
  rewrite IH. reflexivity.
Qed.

Lemma enumerate_map {A B : Type} (f : A -> B) (l : list A) :
  enumerate (map f l) = map (fun p => (fst p, f (snd p))) (enumerate l).
Proof.
  unfold enumerate. rewrite length_map. generalize 0%nat.
  induction l as [|a l IH]; intros k; simpl; [reflexivity|].
  rewrite IH. reflexivity.
Qed.

Lemma combine_map_same {A B C : Type} (f : A -> B) (g : A -> C) (l : list A) :
  combine (map f l) (map g l) = map (fun a => (f a, g a)) l.
Proof.
  induction l as [|a l IH]; simpl; [reflexivity|]. rewrite IH. reflexivity.
Qed.

Lemma filter_all {A : Type} (f : A -> bool) (l : list A) :
  (forall a, In a l -> f a = true) -> filter f l = l.
Proof.
  induction l as [|a l IH]; intros H; simpl; [reflexivity|].
  rewrite (H a) by (left; reflexivity).
  rewrite IH; [reflexivity|]. intros b Hb. apply H. right. exact Hb.
Qed.

Lemma mem_true_iff (i : nat) (indexes : list nat) :
  mem i indexes = true <-> In i indexes.
Proof.
  unfold mem. rewrite existsb_exists. split.
  - intros [j [Hj E]]. apply Nat.eqb_eq in E. subst. exact Hj.
  - intros H. exists i. split; [exact H|apply Nat.eqb_refl].
Qed.

(** Two different positions of a list whose keys are pairwise different hold
    different keys. *)
Lemma NoDup_map_nth_error {A B : Type} (f : A -> B) (l : list A) (p q : nat)
    (a b : A) :
  NoDup (map f l) -> nth_error l p = Some a -> nth_error l q = Some b ->
  p <> q -> f a <> f b.
Proof.
  intros Hnd Hp Hq Hpq Hab.
  apply Hpq.
  apply (proj1 (NoDup_nth_error (map f l)) Hnd).
  - rewrite length_map. apply nth_error_Some. congruence.
  - rewrite !nth_error_map, Hp, Hq. simpl. congruence.
Qed.

Lemma NoDup_map_filter {A B : Type} (f : A -> B) (g : A -> bool) (l : list A) :
  NoDup (map f l) -> NoDup (map f (filter g l)).
Proof.
  induction l as [|a l IH]; intros H; simpl; [constructor|].
  simpl in H. inversion H as [|? ? Hnotin Hrest]; subst.
  destruct (g a); simpl; [|apply IH; assumption].
  constructor; [|apply IH; assumption].
  intros Hin. apply Hnotin. apply in_map_iff in Hin.
  destruct Hin as [b [Hb Hin]]. apply filter_In in Hin.
  apply in_map_iff. exists b. split; [exact Hb|apply Hin].
Qed.

(** ** Suppressor lemmas *)

Lemma overlap_1d_comm (lo1 len1 lo2 len2 : Z) :
  overlap_1d lo1 len1 lo2 len2 = overlap_1d lo2 len2 lo1 len1.
Proof.
  unfold overlap_1d.
  rewrite (Z.min_comm (lo1 + len1)), (Z.max_comm lo1). reflexivity.
Qed.

Lemma intersection_area_comm (a b : Box) :
  intersection_area a b = intersection_area b a.
Proof.
  unfold intersection_area.
  rewrite (overlap_1d_comm (box_x a)), (overlap_1d_comm (box_y a)).
  reflexivity.
Qed.

Lemma iou_comm (a b : Box) : iou a b = iou b a.
Proof.
  unfold iou, union_area.
  rewrite (intersection_area_comm a b), (orb_comm (degenerate a)),
    (Z.add_comm (area a)).
  reflexivity.
Qed.

Lemma survives_true_iff (t : Q) (c d : Cand) :
  survives t c d = true <-> iou (cbox c) (cbox d) <= t.
Proof.
  unfold survives. rewrite negb_true_iff. apply gtb_false_iff.
Qed.

Lemma insert_desc_perm (c : Cand) (l : list Cand) :
  Permutation (c :: l) (insert_desc c l).
Proof.
  induction l as [|d l IH]; simpl; [reflexivity|].
  destruct (gtb (conf d) (conf c)); [|reflexivity].
  rewrite perm_swap. apply perm_skip. exact IH.
Qed.

Lemma sort_desc_perm (l : list Cand) : Permutation l (sort_desc l).
Proof.
  induction l as [|c l IH]; simpl; [reflexivity|].
  rewrite <- insert_desc_perm. apply perm_skip. exact IH.
Qed.

Lemma precedes_conf (c d : Cand) : precedes c d -> conf d <= conf c.
Proof.
  intros [H|[H _]]; [apply Qlt_le_weak; exact H|].
  rewrite H. apply Qle_refl.
Qed.

Lemma insert_desc_sorted (c : Cand) (l : list Cand) :
  Forall (fun d => (idx c < idx d)%nat) l ->
  StronglySorted precedes l -> StronglySorted precedes (insert_desc c l).
Proof.
  intros Hidx Hs. induction Hs as [|d l Hs IH Hd]; simpl.
  - constructor; constructor.
  - inversion Hidx as [|? ? Hcd Hcl]; subst.
    destruct (gtb (conf d) (conf c)) eqn:E.
    + apply gtb_true_iff in E. constructor; [apply IH; exact Hcl|].
      apply (Permutation_Forall (insert_desc_perm c l)).
      constructor; [left; exact E|exact Hd].
    + apply gtb_false_iff in E.
      assert (Hc : forall x, conf x <= conf c -> (idx c < idx x)%nat ->
                             precedes c x).
      { intros x Hx Hi. apply Qle_lt_or_eq in Hx.
        destruct Hx as [Hx|Hx]; [left; exact Hx|right; auto]. }
      constructor; [constructor; assumption|].
      constructor; [apply Hc; assumption|].
      rewrite Forall_forall in Hd, Hcl |- *. intros x Hx.
      apply Hc; [|apply Hcl; exact Hx].
      eapply Qle_trans; [apply precedes_conf; apply Hd; exact Hx|exact E].
Qed.

(** Step 2 of section 4.2: the sort is by confidence descending and stable.
    On candidates listed by increasing index, the result is ordered by
    [precedes]. *)
Lemma sort_desc_sorted (l : list Cand) :
  StronglySorted (fun c d => (idx c < idx d)%nat) l ->
  StronglySorted precedes (sort_desc l).
Proof.
  intros Hs. induction Hs as [|c l Hs IH Hc]; simpl; [constructor|].
  apply insert_desc_sorted; [|exact IH].
  apply (Permutation_Forall (sort_desc_perm l)). exact Hc.
Qed.

Lemma greedy_incl (t : Q) (l : list Cand) :
  forall c, In c (greedy t l) -> In c l.
Proof.
  funelim (greedy t l); intros d Hd.
  - simp greedy in Hd.
  - simp greedy in Hd. destruct Hd as [<-|Hd]; [left; reflexivity|].
    right. apply H in Hd. apply filter_In in Hd. apply Hd.
Qed.

(** A candidate retained earlier has IoU at most [t] with every candidate
    retained after it. *)
Lemma greedy_ordered (t : Q) (l : list Cand) :
  ForallOrdPairs (fun c d => iou (cbox c) (cbox d) <= t) (greedy t l).
Proof.
  funelim (greedy t l); simp greedy; constructor.
  - apply Forall_forall. intros d Hd.
    apply greedy_incl in Hd. apply filter_In in Hd.
    apply survives_true_iff. apply Hd.
  - exact H.
Qed.

Lemma greedy_NoDup (t : Q) (l : list Cand) :
  NoDup (map idx l) -> NoDup (map idx (greedy t l)).
Proof.
  funelim (greedy t l); intros Hnd; simpl; [constructor|].
  simpl in Hnd. inversion Hnd as [|? ? Hnotin Hrest]; subst.
  constructor.
  - intros Hin. apply Hnotin. apply in_map_iff in Hin.
    destruct Hin as [d [Hd Hin]]. apply greedy_incl in Hin.
    apply filter_In in Hin. apply in_map_iff. exists d.
    split; [exact Hd|apply Hin].
  - apply H. apply NoDup_map_filter. exact Hrest.
Qed.

(** Any two retained candidates with different indices have IoU at most [t]. *)
Lemma greedy_pairwise (t : Q) (l : list Cand) (c d : Cand) :
  In c (greedy t l) -> In d (greedy t l) -> idx c <> idx d ->
  iou (cbox c) (cbox d) <= t.
Proof.
  intros Hc Hd Hne.
  destruct (ForallOrdPairs_In (greedy_ordered t l) _ _ Hc Hd) as [E|[H|H]].
  - subst. contradiction.
  - exact H.
  - rewrite iou_comm. exact H.
Qed.

(** A candidate that survives every candidate of the list is retained. *)
Lemma greedy_keeps (t : Q) (l : list Cand) (c : Cand) :
  In c l -> (forall e, In e l -> survives t e c = true) ->
  In c (greedy t l).
Proof.
  funelim (greedy t l); intros Hin Hall.
  - contradiction.
  - destruct Hin as [->|Hin]; [left; reflexivity|].
    right. apply H.
    + apply filter_In. split; [exact Hin|].
      apply Hall. left. reflexivity.
    + intros e He. apply Hall.
      right. apply filter_In in He. apply He.
Qed.

(** When no two candidates of the list overlap by more than [t], the loop
    retains the whole list. *)
Lemma greedy_id (t : Q) (l : list Cand) :
  NoDup (map idx l) ->
  (forall c d, In c l -> In d l -> idx c <> idx d ->
     iou (cbox c) (cbox d) <= t) ->
  greedy t l = l.
Proof.
  induction l as [|c l IH]; intros Hnd Hall; simp greedy; [reflexivity|].
  simpl in Hnd. inversion Hnd as [|? ? Hnotin Hrest]; subst.
  rewrite filter_all.
  - rewrite IH; [reflexivity|exact Hrest|].
    intros a b Ha Hb. apply Hall; right; assumption.
  - intros d Hd. apply survives_true_iff.
    apply Hall; [left; reflexivity|right; exact Hd|].
    intros E. apply Hnotin. rewrite E. apply in_map. exact Hd.
Qed.

(** ** The candidates of a detection set *)

Lemma indexed_dets (ds : list Detection) :
  indexed (map det_box ds) (map det_conf ds) = map cand_of_det (enumerate ds).
Proof.
  unfold indexed. rewrite combine_map_same, enumerate_map, map_map.
  reflexivity.
Qed.

Lemma indexed_dets_idx (ds : list Detection) :
  map idx (indexed (map det_box ds) (map det_conf ds)) = seq 0 (length ds).
Proof.
  rewrite indexed_dets, map_map. simpl. apply enumerate_fst.
Qed.

Lemma in_indexed_dets (ds : list Detection) (c : Cand) :
  In c (indexed (map det_box ds) (map det_conf ds)) <->
  exists d, nth_error ds (idx c) = Some d /\
            cbox c = det_box d /\ conf c = det_conf d.
Proof.
  rewrite indexed_dets, in_map_iff. split.
  - intros [[i d] [<- Hin]]. apply in_enumerate in Hin.
    exists d. simpl. auto.
  - intros [d [Hn [Hb Hc]]]. exists (idx c, d). split.
    + destruct c as [i b f]. simpl in *. subst. reflexivity.
    + apply in_enumerate. exact Hn.
Qed.

Lemma Suppressor_unfold (ds : list Detection) (s t : Q) :
  Suppressor ds s t = map idx (greedy t (sorted_candidates ds s)).
Proof. reflexivity. Qed.

Lemma in_sorted_candidates (ds : list Detection) (s : Q) (c : Cand) :
  In c (sorted_candidates ds s) <->
  exists d, nth_error ds (idx c) = Some d /\
            cbox c = det_box d /\ conf c = det_conf d /\ s <= det_conf d.
Proof.
  unfold sorted_candidates. split.
  - intros H. apply (Permutation_in _ (Permutation_sym (sort_desc_perm _))) in H.
    apply filter_In in H. destruct H as [Hin Hp].
    apply in_indexed_dets in Hin. destruct Hin as [d [Hn [Hb Hc]]].
    exists d. repeat split; try assumption.
    unfold passes in Hp. rewrite negb_true_iff in Hp.
    apply ltb_false_iff in Hp. rewrite <- Hc. exact Hp.
  - intros [d [Hn [Hb [Hc Hs]]]].
    apply (Permutation_in _ (sort_desc_perm _)).
    apply filter_In. split.
    + apply in_indexed_dets. exists d. auto.
    + unfold passes. rewrite negb_true_iff. apply ltb_false_iff.
      rewrite Hc. exact Hs.
Qed.

Lemma enum_from_sorted {A : Type} (l : list A) :
  forall k,
    StronglySorted (fun p q : nat * A => (fst p < fst q)%nat)
                   (combine (seq k (length l)) l).
Proof.
  induction l as [|a l IH]; intros k; simpl; constructor; [apply IH|].
  apply Forall_forall. intros [i x] Hin.
  apply in_enum_from in Hin. simpl. lia.
Qed.

Lemma StronglySorted_map {A B : Type} (R : B -> B -> Prop) (f : A -> B)
    (l : list A) :
  StronglySorted (fun a b => R (f a) (f b)) l -> StronglySorted R (map f l).
Proof.
  intros H. induction H as [|a l Hs IH Ha]; simpl; constructor; [exact IH|].
  apply Forall_map. exact Ha.
Qed.

Lemma StronglySorted_filter {A : Type} (R : A -> A -> Prop) (f : A -> bool)
    (l : list A) :
  StronglySorted R l -> StronglySorted R (filter f l).
Proof.
  intros H. induction H as [|a l Hs IH Ha]; simpl; [constructor|].
  destruct (f a); [|exact IH].
  constructor; [exact IH|].
  rewrite Forall_forall in Ha |- *. intros x Hx.
  apply Ha. apply filter_In in Hx. apply Hx.
Qed.

(** The greedy loop visits the candidates by confidence descending, ties by
    original index ascending. *)
Lemma sorted_candidates_sorted (ds : list Detection) (s : Q) :
  StronglySorted precedes (sorted_candidates ds s).
Proof.
  unfold sorted_candidates. apply sort_desc_sorted.
  apply StronglySorted_filter. rewrite indexed_dets.
  apply StronglySorted_map. apply (enum_from_sorted ds 0).
Qed.

Lemma sorted_candidates_NoDup (ds : list Detection) (s : Q) :
  NoDup (map idx (sorted_candidates ds s)).
Proof.
  unfold sorted_candidates.
  eapply Permutation_NoDup.
  - apply Permutation_map. apply sort_desc_perm.
  - apply NoDup_map_filter. rewrite indexed_dets_idx. apply seq_NoDup.
Qed.

(** A retained index names a detection of the input that passed the score
    gate; it is the index of a retained candidate. *)
Lemma in_Suppressor (ds : list Detection) (s t : Q) (i : nat) :
  In i (Suppressor ds s t) ->
  exists c d, In c (greedy t (sorted_candidates ds s)) /\ idx c = i /\
              nth_error ds i = Some d /\ cbox c = det_box d /\
              s <= det_conf d.
Proof.
  rewrite Suppressor_unfold, in_map_iff.
  intros [c [<- Hc]].
  pose proof (greedy_incl _ _ _ Hc) as Hin.
  apply in_sorted_candidates in Hin.
  destruct Hin as [d [Hn [Hb [_ Hs]]]].
  exists c, d. auto.
Qed.

Lemma Suppressor_pairwise (ds : list Detection) (s t : Q) (i j : nat)
    (di dj : Detection) :
  In i (Suppressor ds s t) -> In j (Suppressor ds s t) -> i <> j ->
  nth_error ds i = Some di -> nth_error ds j = Some dj ->
  iou (det_box di) (det_box dj) <= t.
Proof.
  intros Hi Hj Hne Hdi Hdj.
  apply in_Suppressor in Hi. destruct Hi as [ci [di' [Hci [Ei [Hni [Hbi _]]]]]].
  apply in_Suppressor in Hj. destruct Hj as [cj [dj' [Hcj [Ej [Hnj [Hbj _]]]]]].
  assert (di' = di) by congruence. assert (dj' = dj) by congruence. subst di' dj'.
  rewrite <- Hbi, <- Hbj.
  apply (greedy_pairwise _ _ _ _ Hci Hcj). congruence.
Qed.

Lemma Suppressor_passes (ds : list Detection) (s t : Q) (i : nat)
    (d : Detection) :
  In i (Suppressor ds s t) -> nth_error ds i = Some d -> s <= det_conf d.
Proof.
  intros Hi Hd.
  apply in_Suppressor in Hi. destruct Hi as [c [d' [_ [_ [Hn [_ Hs]]]]]].
  congruence.
Qed.

(** A detection set in which every entry passes the score gate and no two
    entries overlap by more than [t] is retained whole. *)
Lemma Suppressor_all (ds : list Detection) (s t : Q) :
  (forall d, In d ds -> s <= det_conf d) ->
  (forall p q dp dq, p <> q -> nth_error ds p = Some dp ->
     nth_error ds q = Some dq -> iou (det_box dp) (det_box dq) <= t) ->
  Permutation (Suppressor ds s t) (seq 0 (length ds)).
Proof.
  intros Hpass Hpair.
  rewrite Suppressor_unfold, greedy_id.
  - unfold sorted_candidates.
    rewrite <- (Permutation_map idx (sort_desc_perm _)).
    rewrite filter_all; [rewrite indexed_dets_idx; reflexivity|].
    intros c Hc. apply in_indexed_dets in Hc.
    destruct Hc as [d [Hn [_ Hc]]].
    unfold passes. rewrite negb_true_iff. apply ltb_false_iff.
    rewrite Hc. apply Hpass. eapply nth_error_In. exact Hn.
  - apply sorted_candidates_NoDup.
  - intros c d Hc Hd Hne.
    apply in_sorted_candidates in Hc. destruct Hc as [dc [Hnc [Hbc _]]].
    apply in_sorted_candidates in Hd. destruct Hd as [dd [Hnd [Hbd _]]].
    rewrite Hbc, Hbd. eapply Hpair; eassumption.
Qed.

Lemma restrict_nth_error (ds : list Detection) (indexes : list nat) (p : nat)
    (d : Detection) :
  nth_error (restrict ds indexes) p = Some d ->
  exists i,
    nth_error (filter (fun e => mem (fst e) indexes) (enumerate ds)) p
      = Some (i, d) /\
    In i indexes /\ nth_error ds i = Some d.
Proof.
  unfold restrict. rewrite nth_error_map.
  destruct (nth_error _ p) as [[i d']|] eqn:E; simpl; [|discriminate].
  intros H. injection H as ->. exists i. split; [reflexivity|].
  apply nth_error_In in E. apply filter_In in E. destruct E as [Hin Hm].
  split; [apply mem_true_iff; exact Hm|apply in_enumerate; exact Hin].
Qed.

Lemma restrict_all (ds : list Detection) (indexes : list nat) :
  (forall i, (i < length ds)%nat -> In i indexes) ->
  restrict ds indexes = ds.
Proof.
  intros H. unfold restrict. rewrite filter_all; [apply enumerate_snd|].
  intros [i d] Hin. simpl. apply mem_true_iff. apply H.
  apply in_enumerate in Hin. apply nth_error_Some. congruence.
Qed.

(** ** Suppressor theorems *)

(** C1. For every detection set and every pair of thresholds, each retained
    index is an index of the input, and any two different retained detections
    have boxes whose IoU is at most the overlap threshold. *)
Theorem suppressor_sound (ds : list Detection) (s t : Q) (i j : nat) :
  In i (Suppressor ds s t) -> In j (Suppressor ds s t) ->
  (i < length ds)%nat /\
  exists di dj,
    nth_error ds i = Some di /\ nth_error ds j = Some dj /\
    (i <> j -> iou (det_box di) (det_box dj) <= t).
Proof.
  intros Hi Hj.
  destruct (in_Suppressor _ _ _ _ Hi) as [ci [di [_ [_ [Hni _]]]]].
  destruct (in_Suppressor _ _ _ _ Hj) as [cj [dj [_ [_ [Hnj _]]]]].
  split.
  - apply nth_error_Some. congruence.
  - exists di, dj. split; [exact Hni|]. split; [exact Hnj|].
    intros Hne. exact (@Suppressor_pairwise ds s t i j di dj Hi Hj Hne Hni Hnj).
Qed.

(** Three detections: the second overlaps the first too much and goes, the
    third is disjoint from the first and stays. *)
Lemma suppressor_sound_witness :
  let ds := [mkDetection 0 (9 # 10) (mkBox 0 0 10 10);
             mkDetection 0 (6 # 10) (mkBox 0 0 9 10);
             mkDetection 2 (5 # 10) (mkBox 100 100 5 5)] in
  Suppressor ds (4 # 10) (6 # 10) = [0; 2]%nat /\
  exists di dj,
    nth_error ds 0 = Some di /\ nth_error ds 2 = Some dj /\
    (0%nat <> 2%nat -> iou (det_box di) (det_box dj) <= 6 # 10).
Proof.
  intros ds.
  assert (E : Suppressor ds (4 # 10) (6 # 10) = [0; 2]%nat) by reflexivity.
  split; [exact E|].
  apply (@suppressor_sound ds (4 # 10) (6 # 10) 0%nat 2%nat);
    rewrite E; simpl; auto.
Defined.

(** The greedy loop on two candidates of which the first removes the second. *)
Lemma greedy_pair_suppressed (t : Q) (c d : Cand) :
  t < iou (cbox c) (cbox d) -> greedy t [c; d] = [c].
Proof.
  intros H. simp greedy. simpl.
  assert (E : survives t c d = false).
  { unfold survives. rewrite negb_false_iff. apply gtb_true_iff. exact H. }
  rewrite E. simp greedy. reflexivity.
Qed.

Lemma passes_true (s : Q) (c : Cand) : s <= conf c -> passes s c = true.
Proof.
  intros H. unfold passes. rewrite negb_true_iff. apply ltb_false_iff. exact H.
Qed.

(** C4. Two detections whose boxes have IoU 0.9, with confidences 0.9 and
    0.6, both passing the score gate, under the overlap threshold 0.6: only
    the detection with confidence 0.9 is retained, whichever comes first. *)
Theorem suppressor_two_overlapping (k0 k1 : nat) (b0 b1 : Box) (s : Q) :
  iou b0 b1 == 9 # 10 -> s <= 6 # 10 ->
  Suppressor [mkDetection k0 (9 # 10) b0; mkDetection k1 (6 # 10) b1]
             s (6 # 10) = [0%nat] /\
  Suppressor [mkDetection k0 (6 # 10) b0; mkDetection k1 (9 # 10) b1]
             s (6 # 10) = [1%nat].
Proof.
  intros Hiou Hs.
  assert (Hs9 : s <= 9 # 10).
  { eapply Qle_trans; [exact Hs|]. vm_compute. discriminate. }
  assert (Hover : (6 # 10) < 9 # 10) by reflexivity.
  split.
  - unfold Suppressor, NMSBoxes, indexed, enumerate.
    cbn [map combine seq length det_box det_conf filter].
    unfold cand_of. cbn [fst snd].
    rewrite (@passes_true s (mkCand 0 b0 (9 # 10)) Hs9).
    rewrite (@passes_true s (mkCand 1 b1 (6 # 10)) Hs).
    change (sort_desc [mkCand 0 b0 (9 # 10); mkCand 1 b1 (6 # 10)])
      with [mkCand 0 b0 (9 # 10); mkCand 1 b1 (6 # 10)].
    rewrite greedy_pair_suppressed; [reflexivity|].
    simpl. rewrite Hiou. exact Hover.
  - unfold Suppressor, NMSBoxes, indexed, enumerate.
    cbn [map combine seq length det_box det_conf filter].
    unfold cand_of. cbn [fst snd].
    rewrite (@passes_true s (mkCand 0 b0 (6 # 10)) Hs).
    rewrite (@passes_true s (mkCand 1 b1 (9 # 10)) Hs9).
    change (sort_desc [mkCand 0 b0 (6 # 10); mkCand 1 b1 (9 # 10)])
      with [mkCand 1 b1 (9 # 10); mkCand 0 b0 (6 # 10)].
    rewrite greedy_pair_suppressed; [reflexivity|].
    simpl. rewrite iou_comm, Hiou. exact Hover.
Qed.

Lemma suppressor_two_overlapping_witness :
  iou (mkBox 0 0 10 10) (mkBox 0 0 9 10) == 9 # 10 /\
  Suppressor [mkDetection 0 (9 # 10) (mkBox 0 0 10 10);
              mkDetection 0 (6 # 10) (mkBox 0 0 9 10)]
             (4 # 10) (6 # 10) = [0%nat].
Proof.
  assert (H : iou (mkBox 0 0 10 10) (mkBox 0 0 9 10) == 9 # 10) by reflexivity.
  split; [exact H|].
  apply (@suppressor_two_overlapping 0 0 (mkBox 0 0 10 10) (mkBox 0 0 9 10)
           (4 # 10) H).
  vm_compute. discriminate.
Defined.

(** C5. Suppression is idempotent: run again, with the same thresholds, on
    the detections it retained (kept in their original order), the suppressor
    retains every one of them, so restricting once more changes nothing. *)
Theorem suppressor_idempotent (ds : list Detection) (s t : Q) :
  let kept := restrict ds (Suppressor ds s t) in
  Permutation (Suppressor kept s t) (seq 0 (length kept)) /\
  restrict kept (Suppressor kept s t) = kept.
Proof.
  intros kept.
  assert (Hall : Permutation (Suppressor kept s t) (seq 0 (length kept))).
  { apply Suppressor_all.
    - intros d Hd. apply In_nth_error in Hd. destruct Hd as [p Hp].
      apply restrict_nth_error in Hp. destruct Hp as [i [_ [Hi Hn]]].
      exact (@Suppressor_passes ds s t i d Hi Hn).
    - intros p q dp dq Hpq Hp Hq.
      apply restrict_nth_error in Hp. destruct Hp as [i [Hfp [Hi Hni]]].
      apply restrict_nth_error in Hq. destruct Hq as [j [Hfq [Hj Hnj]]].
      apply (@Suppressor_pairwise ds s t i j dp dq Hi Hj); try assumption.
      change (fst (i, dp) <> fst (j, dq)).
      eapply (@NoDup_map_nth_error _ _ fst _ p q (i, dp) (j, dq));
        [|exact Hfp|exact Hfq|exact Hpq].
      apply NoDup_map_filter. rewrite enumerate_fst. apply seq_NoDup. }
  split; [exact Hall|].
  apply restrict_all. intros i Hi.
  apply (Permutation_in _ (Permutation_sym Hall)).
  apply in_seq. lia.
Qed.

(** C6. A box with zero or negative width or height has IoU 0 with every
    box, on either side. Hence, under a non-negative overlap threshold, it
    passes every overlap test, removes nothing when it is chosen, and is
    retained whenever it passes the score gate. *)
Theorem degenerate_box_never_overlaps (a : Box) :
  degenerate a = true ->
  (forall b, iou a b = 0 /\ iou b a = 0) /\
  (forall t c d, 0 <= t -> cbox c = a ->
     survives t c d = true /\ survives t d c = true) /\
  (forall t c rest, 0 <= t -> cbox c = a ->
     greedy t (c :: rest) = c :: greedy t rest) /\
  (forall t s ds i d, 0 <= t -> nth_error ds i = Some d -> det_box d = a ->
     s <= det_conf d -> In i (Suppressor ds s t)).
Proof.
  intros Hdeg.
  assert (Hiou : forall b, iou a b = 0 /\ iou b a = 0).
  { intros b. unfold iou. rewrite Hdeg, orb_true_r. simpl. auto. }
  assert (Hsurv : forall t c d, 0 <= t -> cbox c = a ->
            survives t c d = true /\ survives t d c = true).
  { intros t c d Ht Hc. rewrite !survives_true_iff, Hc.
    destruct (Hiou (cbox d)) as [-> ->]. auto. }
  split; [exact Hiou|]. split; [exact Hsurv|]. split.
  - intros t c rest Ht Hc. simp greedy. rewrite filter_all; [reflexivity|].
    intros d _. apply (Hsurv t c d Ht Hc).
  - intros t s ds i d Ht Hn Hb Hs.
    rewrite Suppressor_unfold. apply in_map_iff.
    exists (mkCand i (det_box d) (det_conf d)). split; [reflexivity|].
    apply greedy_keeps.
    + apply in_sorted_candidates. exists d. simpl. auto.
    + intros e _. apply (Hsurv t (mkCand i (det_box d) (det_conf d)) e Ht Hb).
Qed.

(** A zero-width box inside a larger one: both are retained. *)
Lemma degenerate_box_never_overlaps_witness :
  degenerate (mkBox 3 3 0 4) = true /\
  iou (mkBox 3 3 0 4) (mkBox 0 0 10 10) = 0 /\
  In 1%nat (Suppressor [mkDetection 0 (9 # 10) (mkBox 0 0 10 10);
                        mkDetection 0 (7 # 10) (mkBox 3 3 0 4)]
                       (4 # 10) (6 # 10)).
Proof.
  assert (H : degenerate (mkBox 3 3 0 4) = true) by reflexivity.
  destruct (@degenerate_box_never_overlaps (mkBox 3 3 0 4) H)
    as [Hiou [_ [_ Hkeep]]].
  split; [exact H|]. split; [apply Hiou|].
  apply (Hkeep (6 # 10) (4 # 10) _ 1%nat (mkDetection 0 (7 # 10) (mkBox 3 3 0 4)));
    try reflexivity; vm_compute; discriminate.
Defined.

(** C7. Suppression is class-agnostic. The retained indices are a function of
    the boxes and the confidences alone; and a detection of one class removes
    an overlapping, less confident detection of another class that would have
    been retained on its own. *)
Theorem suppressor_class_agnostic :
  (forall ds ds' s t,
     map det_box ds = map det_box ds' -> map det_conf ds = map det_conf ds' ->
     Suppressor ds s t = Suppressor ds' s t) /\
  (exists ds s t i j di dj,
     nth_error ds i = Some di /\ nth_error ds j = Some dj /\
     det_class di <> det_class dj /\
     det_conf dj < det_conf di /\ s <= det_conf dj /\
     t < iou (det_box di) (det_box dj) /\
     In i (Suppressor ds s t) /\ ~ In j (Suppressor ds s t) /\
     Suppressor [dj] s t = [0%nat]).
Proof.
  split.
  - intros ds ds' s t Hb Hc. unfold Suppressor. rewrite Hb, Hc. reflexivity.
  - exists [mkDetection 0 (9 # 10) (mkBox 0 0 10 10);
            mkDetection 16 (6 # 10) (mkBox 0 0 9 10)],
      (4 # 10), (6 # 10), 0%nat, 1%nat,
      (mkDetection 0 (9 # 10) (mkBox 0 0 10 10)),
      (mkDetection 16 (6 # 10) (mkBox 0 0 9 10)).
    repeat (split; [reflexivity || (simpl; discriminate) || (vm_compute; auto; fail)|]).
    split; [vm_compute; intros [H|[]]; discriminate|reflexivity].
Qed.

(** ** The cells' calls are calls of the suppressor *)

Lemma zip_detections_maps (cs : list nat) :
  forall fs bs, length cs = length fs -> length fs = length bs ->
    map det_box (zip_detections cs fs bs) = bs /\
    map det_conf (zip_detections cs fs bs) = fs /\
    map det_class (zip_detections cs fs bs) = cs.
Proof.
  induction cs as [|c cs IH]; intros [|f fs] [|b bs] H1 H2;
    simpl in *; try discriminate; auto.
  destruct (IH fs bs) as [E1 [E2 E3]]; [lia|lia|].
  rewrite E1, E2, E3. auto.
Qed.

Lemma decode_lengths (thr : Q) (width height : Z)
    (outs : list (list (list Q))) (acc : Detections) :
  decode thr width height outs = Ok acc ->
  length (class_ids acc) = length (confidences acc) /\
  length (confidences acc) = length (boxes acc).
Proof.
  intros H. pose proof (decode_outs_returns _ _ _ _ _ H) as Hwf.
  unfold decode in H.
  rewrite (decode_outs_spec thr width height no_detections Hwf) in H.
  injection H as <-. simpl. rewrite !length_map. auto.
Qed.

Lemma indexes_image_Suppressor (width height : Z)
    (outs : list (list (list Q))) (acc : Detections) :
  decode_image width height outs = Ok acc ->
  indexes_image acc = Suppressor (detection_set acc) (4 # 10) (6 # 10).
Proof.
  intros H. apply decode_lengths in H. destruct H as [H1 H2].
  unfold indexes_image, Suppressor, detection_set.
  destruct (zip_detections_maps _ _ _ H1 H2) as [-> [-> _]]. reflexivity.
Qed.

Lemma indexes_video_Suppressor (width height : Z)
    (outs : list (list (list Q))) (acc : Detections) :
  decode_video width height outs = Ok acc ->
  indexes_video acc = Suppressor (detection_set acc) (8 # 10) (3 # 10).
Proof.
  intros H. apply decode_lengths in H. destruct H as [H1 H2].
  unfold indexes_video, Suppressor, detection_set.
  destruct (zip_detections_maps _ _ _ H1 H2) as [-> [-> _]]. reflexivity.
Qed.

(** ** Annotator *)

Lemma getitem_out_of_range {A : Type} (l : list A) (i : nat) :
  (length l <= i)%nat -> getitem l i = Raise IndexError.
Proof.
  intros H. unfold getitem.
  destruct (nth_error l i) eqn:E; [|reflexivity].
  assert (nth_error l i <> None) by congruence.
  apply nth_error_Some in H0. lia.
Qed.

Lemma getitem_in_range {A : Type} (l : list A) (i : nat) :
  (i < length l)%nat -> exists a, getitem l i = Ok a /\ nth_error l i = Some a.
Proof.
  intros H. unfold getitem.
  destruct (nth_error l i) as [a|] eqn:E.
  - exists a. auto.
  - apply nth_error_None in E. lia.
Qed.

Lemma annotate_image_step_raises (classes : list String.string)
    (colors : list Color) (acc : Detections) (indexes : list nat)
    (img : list Draw) (i : nat) (e : exn) :
  annotate_image_step classes colors acc indexes img i = Raise e ->
  e = IndexError.
Proof.
  unfold annotate_image_step, getitem.
  destruct (mem i indexes); [|discriminate].
  destruct (nth_error (boxes acc) i); simpl; [|congruence].
  destruct (nth_error (class_ids acc) i) as [k|]; simpl; [|congruence].
  destruct (nth_error classes k); simpl; [|congruence].
  destruct (nth_error colors i); simpl; [discriminate|congruence].
Qed.

Lemma annotate_image_step_color (classes : list String.string)
    (colors : list Color) (acc : Detections) (indexes : list nat)
    (img : list Draw) (i : nat) :
  In i indexes -> (length colors <= i)%nat ->
  exists e, annotate_image_step classes colors acc indexes img i = Raise e.
Proof.
  intros Hin Hlen. unfold annotate_image_step.
  rewrite (proj2 (mem_true_iff i indexes) Hin).
  rewrite (getitem_out_of_range colors Hlen).
  destruct (getitem (boxes acc) i); simpl; [|eauto].
  destruct (getitem (class_ids acc) i) as [k|]; simpl; [|eauto].
  destruct (getitem classes k); simpl; eauto.
Qed.

Lemma for_range_raises (step : list Draw -> nat -> result (list Draw))
    (e : exn) (i : nat) (range : list nat) :
  In i range ->
  (forall img, exists e', step img i = Raise e') ->
  (forall img j e', step img j = Raise e' -> e' = e) ->
  forall img, for_range step img range = Raise e.
Proof.
  intros Hin Hi Hall.
  induction range as [|j range IH]; intros img; simpl; [contradiction|].
  destruct (step img j) as [img'|e'] eqn:E; simpl.
  - destruct Hin as [->|Hin]; [|apply IH; exact Hin].
    destruct (Hi img) as [e' He']. congruence.
  - rewrite (Hall _ _ _ E). reflexivity.
Qed.

(** C10. In the still-image cell the colour table has one entry per class
    but is indexed by the detection's position: as soon as a retained index is
    at least the number of classes, the colour lookup is out of range and the
    annotation loop stops on an [IndexError], although the box, the class id
    and the label of that detection are all found. *)
Theorem annotate_image_color_out_of_range (classes : list String.string)
    (colors : list Color) (acc : Detections) (indexes : list nat) (i : nat) :
  length colors = length classes ->
  length (class_ids acc) = length (boxes acc) ->
  Forall (fun k => (k < length classes)%nat) (class_ids acc) ->
  In i indexes -> (i < length (boxes acc))%nat -> (length classes <= i)%nat ->
  (exists b k label,
     getitem (boxes acc) i = Ok b /\ getitem (class_ids acc) i = Ok k /\
     getitem classes k = Ok label) /\
  getitem colors i = Raise IndexError /\
  annotate_image classes colors acc indexes = Raise IndexError.
Proof.
  intros Hcol Hlen Hvalid Hin Hi Hge.
  split; [|split].
  - destruct (getitem_in_range (boxes acc) Hi) as [b [Hb _]].
    rewrite <- Hlen in Hi.
    destruct (getitem_in_range (class_ids acc) Hi) as [k [Hk Hnk]].
    apply nth_error_In in Hnk.
    rewrite Forall_forall in Hvalid. apply Hvalid in Hnk.
    destruct (getitem_in_range classes Hnk) as [label [Hl _]].
    exists b, k, label. auto.
  - apply getitem_out_of_range. lia.
  - unfold annotate_image.
    apply for_range_raises with (i := i).
    + apply in_seq. lia.
    + intros img. apply annotate_image_step_color; [exact Hin|lia].
    + intros img j e'. apply annotate_image_step_raises.
Qed.

(** Two classes, three disjoint detections, all retained: the third has no
    colour. *)
Lemma annotate_image_color_out_of_range_witness :
  let classes := ["person"; "bicycle"]%string in
  let colors := [(0, 0, 0); (255, 255, 255)] in
  let acc := mkDetections [0; 1; 0]%nat [9 # 10; 8 # 10; 7 # 10]
               [mkBox 0 0 10 10; mkBox 50 50 10 10; mkBox 100 100 10 10] in
  indexes_image acc = [0; 1; 2]%nat /\
  annotate_image classes colors acc (indexes_image acc) = Raise IndexError.
Proof.
  intros classes colors acc.
  assert (E : indexes_image acc = [0; 1; 2]%nat) by reflexivity.
  split; [exact E|].
  apply (@annotate_image_color_out_of_range classes colors acc
           (indexes_image acc) 2%nat).
  - reflexivity.
  - reflexivity.
  - repeat constructor.
  - rewrite E. simpl. auto.
  - simpl. lia.
  - simpl. lia.
Defined.

(** ** Frame processing loop *)

Lemma count_event_app (e : Event) (l1 l2 : list Event) :
  count_event e (l1 ++ l2) = (count_event e l1 + count_event e l2)%nat.
Proof. unfold count_event. rewrite filter_app, length_app. reflexivity. Qed.

Lemma count_turns (n : nat) :
  count_event CapRead (turns n) = n /\
  count_event CapRelease (turns n) = 0%nat /\
  count_event DestroyAllWindows (turns n) = 0%nat.
Proof.
  induction n as [|n [IH1 [IH2 IH3]]]; simpl turns; [repeat split|].
  change (CapRead :: ImShow :: WaitKey :: turns n)
    with ([CapRead; ImShow; WaitKey] ++ turns n).
  rewrite !count_event_app, IH1, IH2, IH3. repeat split.
Qed.

Ltac count_closed :=
  repeat match goal with
  | |- context [count_event ?e (?x :: ?l)] =>
      let v := eval vm_compute in (count_event e (x :: l)) in
      change (count_event e (x :: l)) with v
  end.

(** The loop never releases the capture or the windows except once, on
    [break]. *)
Lemma video_loop_releases (classes : list String.string) (colors : list Color)
    (ticks : list Tick) :
  forall frame_id events,
    let r := video_loop classes colors ticks frame_id events in
    let n := match run_status r with Stopped => 1%nat | _ => 0%nat end in
    count_event CapRelease (run_events r)
      = (count_event CapRelease events + n)%nat /\
    count_event DestroyAllWindows (run_events r)
      = (count_event DestroyAllWindows events + n)%nat.
Proof.
  induction ticks as [|tk ticks IH]; intros frame_id events; simpl.
  - split; lia.
  - destruct (process_frame classes colors (tick_frame tk)) as [drawn|e]; simpl.
    + destruct (tick_key tk =? ESC)%Z; simpl.
      * rewrite !count_event_app. count_closed. split; lia.
      * destruct (IH (S frame_id) ((events ++ [CapRead]) ++ [ImShow; WaitKey]))
          as [H1 H2].
        rewrite H1, H2, !count_event_app. count_closed. split; lia.
    + rewrite !count_event_app. count_closed. split; lia.
Qed.

(** Whatever the outside world supplies, the capture handle is released
    exactly when the loop ended on [break]; a cell left by an exception has
    released nothing. *)
Lemma video_cell_releases (classes : list String.string) (colors : list Color)
    (ticks : list Tick) :
  let r := video_cell classes colors ticks in
  count_event CapRelease (run_events r)
  = match run_status r with Stopped => 1%nat | _ => 0%nat end.
Proof.
  intros r.
  destruct (video_loop_releases classes colors ticks 0 []) as [H _].
  exact H.
Qed.

(** Turns that complete without the stop key, then one that sees it. *)
Lemma video_loop_stops (classes : list String.string) (colors : list Color)
    (pre : list Tick) (tk : Tick) (post : list Tick) :
  Forall (fun x => completes classes colors x = true /\ tick_key x <> ESC) pre ->
  completes classes colors tk = true -> tick_key tk = ESC ->
  forall frame_id events,
    video_loop classes colors (pre ++ tk :: post) frame_id events
    = mkRun Stopped (frame_id + S (length pre))
        (events ++ turns (S (length pre)) ++ [CapRelease; DestroyAllWindows]).
Proof.
  intros Hpre Htk Hkey.
  induction Hpre as [|x pre [Hx Hk] Hpre IH]; intros frame_id events; simpl.
  - unfold completes in Htk.
    destruct (process_frame classes colors (tick_frame tk)); [|discriminate].
    rewrite Hkey. simpl. rewrite Nat.add_1_r, <- !app_assoc. reflexivity.
  - unfold completes in Hx.
    destruct (process_frame classes colors (tick_frame x)); [|discriminate].
    apply Z.eqb_neq in Hk. rewrite Hk.
    rewrite IH. f_equal; [lia|].
    rewrite <- !app_assoc. reflexivity.
Qed.

(** C9, as the notebook has it. When the stop key is seen in turn k, after
    k - 1 turns that completed without it, the loop ends there: exactly k
    frames were read, whatever the outside world would have supplied next,
    and the capture handle and the windows are each released exactly once,
    as the last two calls. *)
Theorem loop_cancellation (classes : list String.string) (colors : list Color)
    (pre : list Tick) (tk : Tick) (post : list Tick) :
  Forall (fun x => completes classes colors x = true /\ tick_key x <> ESC) pre ->
  completes classes colors tk = true -> tick_key tk = ESC ->
  let r := video_cell classes colors (pre ++ tk :: post) in
  let k := S (length pre) in
  run_status r = Stopped /\
  run_frame_id r = k /\
  run_events r = turns k ++ [CapRelease; DestroyAllWindows] /\
  count_event CapRead (run_events r) = k /\
  count_event CapRelease (run_events r) = 1%nat /\
  count_event DestroyAllWindows (run_events r) = 1%nat /\
  r = video_cell classes colors (pre ++ [tk]).
Proof.
  intros Hpre Htk Hkey r k.
  assert (E : r = mkRun Stopped k (turns k ++ [CapRelease; DestroyAllWindows])).
  { unfold r, video_cell.
    rewrite (@video_loop_stops classes colors pre tk post Hpre Htk Hkey).
    reflexivity. }
  assert (E' : video_cell classes colors (pre ++ [tk]) = r).
  { rewrite E. unfold video_cell.
    rewrite (@video_loop_stops classes colors pre tk [] Hpre Htk Hkey).
    reflexivity. }
  destruct (count_turns k) as [C1 [C2 C3]].
  rewrite E'. clearbody r. subst r. cbn [run_events run_status run_frame_id].
  rewrite !count_event_app, C1, C2, C3. count_closed.
  repeat split; lia.
Qed.

Lemma loop_cancellation_witness :
  let classes := ["person"]%string in
  let colors := [(0, 0, 0)] in
  let row := [1 # 2; 1 # 2; 2 # 10; 3 # 10; 1; 9 # 10] in
  let frame := Some (mkFrame 480 640 [[row]]) in
  let r := video_cell classes colors
             ([mkTick frame (-1)] ++ mkTick frame 27 :: [mkTick None (-1)]) in
  run_status r = Stopped /\ run_frame_id r = 2%nat /\
  count_event CapRelease (run_events r) = 1%nat.
Proof.
  intros classes colors row frame r.
  destruct (@loop_cancellation classes colors [mkTick frame (-1)]
              (mkTick frame 27) [mkTick None (-1)])
    as [H1 [H2 [_ [_ [H3 _]]]]].
  - constructor; [|constructor]. split; [reflexivity|discriminate].
  - reflexivity.
  - reflexivity.
  - auto.
Defined.

(** C9, as the specification words it, fails on the error path: when
    [cap.read()] hands back no frame, the turn raises, the cell is left, and
    neither the capture handle nor the windows are released. *)
Lemma loop_error_exit_counterexample :
  let classes := ["person"]%string in
  let colors := [(0, 0, 0)] in
  let r := video_cell classes colors [mkTick None (-1)] in
  exited r = true /\
  run_status r = Crashed AttributeError /\
  count_event CapRelease (run_events r) = 0%nat /\
  count_event DestroyAllWindows (run_events r) = 0%nat.
Proof. repeat split. Qed.

(** * Further properties of the cells *)

(** ** Decoder: errors, invariants, composition *)

Lemma decode_out_raises (thr : Q) (width height : Z) (out : list (list Q)) :
  forall acc e,
    decode_out thr width height acc out = Raise e ->
    e = ValueError /\ exists row, In row out /\ (length row <= 5)%nat.
Proof.
  induction out as [|row out IH]; intros acc e H; simpl in H; [discriminate|].
  rewrite decode_row_cases in H.
  destruct (scores_of row) as [|x l] eqn:Es.
  - simpl in H. injection H as <-. split; [reflexivity|].
    exists row. split; [left; reflexivity|].
    destruct (Nat.le_gt_cases (length row) 5) as [Hle|Hgt]; [exact Hle|].
    exfalso. exact (well_formed_scores Hgt Es).
  - destruct (accepted thr row); simpl in H;
      destruct (IH _ _ H) as [He [r [Hr Hlen]]];
      (split; [exact He|exists r; split; [right; exact Hr|exact Hlen]]).
Qed.

Lemma decode_outs_concat (thr : Q) (width height : Z)
    (outs : list (list (list Q))) :
  forall acc,
    decode_outs thr width height acc outs
    = decode_out thr width height acc (concat outs).
Proof.
  induction outs as [|out outs IH]; intros acc; simpl; [reflexivity|].
  revert acc. induction out as [|row out IHo]; intros acc; simpl.
  - apply IH.
  - destruct (decode_row thr width height acc row); simpl;
      [apply IHo|reflexivity].
Qed.

Lemma Forall_concat_iff {A : Type} (P : A -> Prop) (ls : list (list A)) :
  Forall (Forall P) ls <-> Forall P (concat ls).
Proof.
  induction ls as [|l ls IH]; simpl.
  - split; constructor.
  - rewrite Forall_app, <- IH. split.
    + intros H. inversion H; subst. auto.
    + intros [H1 H2]. constructor; assumption.
Qed.


(** X2. The three lists the loop grows stay in lock-step: whenever it
    returns, [class_ids], [confidences] and [boxes] have the same length,
    which is the number of accepted rows. *)
Theorem decode_lists_in_lock_step (thr : Q) (width height : Z)
    (outs : list (list (list Q))) (acc : Detections) :
  decode thr width height outs = Ok acc ->
  let n := length (filter (accepted thr) (concat outs)) in
  length (class_ids acc) = n /\ length (confidences acc) = n /\
  length (boxes acc) = n /\ length (detection_set acc) = n.
Proof.
  intros H n. pose proof (decode_outs_returns _ _ _ _ _ H) as Hwf.
  unfold decode in H.
  rewrite (decode_outs_spec thr width height no_detections Hwf) in H.
  injection H as <-. unfold detection_set. simpl. fold n.
  rewrite !length_map. repeat split.
  destruct (@zip_detections_maps
              (map row_class (filter (accepted thr) (concat outs)))
              (map row_conf (filter (accepted thr) (concat outs)))
              (map (row_box width height) (filter (accepted thr) (concat outs))))
    as [E _]; [rewrite !length_map; reflexivity..|].
  apply (f_equal (@length Box)) in E. rewrite !length_map in E. exact E.
Qed.

Lemma decode_lists_in_lock_step_witness :
  let outs := [[[1 # 2; 1 # 2; 2 # 10; 3 # 10; 1; 1 # 2; 1 # 10]];
               [[1 # 4; 1 # 4; 1 # 10; 1 # 10; 1; 2 # 10; 7 # 10]]] in
  let acc := mkDetections [1%nat] [7 # 10] [mkBox 83 83 41 41] in
  decode_image 416 416 outs = Ok acc /\ length (boxes acc) = 1%nat.
Proof.
  intros outs acc.
  assert (H : decode (1 # 2) 416 416 outs = Ok acc) by reflexivity.
  split; [exact H|].
  apply (decode_lists_in_lock_step _ _ _ _ H).
Defined.

(** X3. When every row carries exactly K class scores, every class id the
    loop emits is below K: with K class names loaded, the label lookup
    [classes[class_ids[i]]] cannot go out of range. *)
Theorem decode_class_ids_in_range (thr : Q) (width height : Z)
    (outs : list (list (list Q))) (acc : Detections) (K : nat) :
  decode thr width height outs = Ok acc ->
  (forall row, In row (concat outs) -> length row = (5 + K)%nat) ->
  Forall (fun k => (k < K)%nat) (class_ids acc).
Proof.
  intros H Hshape. pose proof (decode_outs_returns _ _ _ _ _ H) as Hwf.
  unfold decode in H.
  rewrite (decode_outs_spec thr width height no_detections Hwf) in H.
  injection H as <-. simpl.
  apply Forall_forall. intros k Hk. apply in_map_iff in Hk.
  destruct Hk as [row [<- Hrow]]. apply filter_In in Hrow.
  destruct Hrow as [Hin _].
  apply Forall_concat_iff in Hwf. rewrite Forall_forall in Hwf.
  pose proof (well_formed_scores (Hwf _ Hin)) as Hne.
  assert (HK : length (scores_of row) = K).
  { unfold scores_of. rewrite length_skipn, (Hshape _ Hin). lia. }
  unfold row_class.
  destruct (argmax (scores_of row)) as [i|e] eqn:E.
  - apply argmax_in_range in E. lia.
  - destruct (scores_of row); [contradiction|discriminate].
Qed.

Lemma decode_class_ids_in_range_witness :
  let outs := [[[1 # 2; 1 # 2; 2 # 10; 3 # 10; 1; 1 # 2; 1 # 10];
                [1 # 4; 1 # 4; 1 # 10; 1 # 10; 1; 2 # 10; 7 # 10]]] in
  Forall (fun k => (k < 2)%nat) [1%nat].
Proof.
  intros outs.
  apply (@decode_class_ids_in_range (1 # 2) 416 416 outs
           (mkDetections [1%nat] [7 # 10] [mkBox 83 83 41 41]) 2%nat).
  - reflexivity.
  - intros row [<-|[<-|[]]]; reflexivity.
Defined.

Lemma argmax_from_first (l : list Q) :
  forall pre best besti i,
    length pre = i -> (besti < i)%nat -> nth besti pre 0 = best ->
    (forall j, (j < i)%nat -> nth j pre 0 <= best) ->
    (forall j, (j < besti)%nat -> nth j pre 0 < best) ->
    let r := argmax_from best besti i l in
    (r < i + length l)%nat /\
    (forall j, (j < i + length l)%nat ->
       nth j (pre ++ l) 0 <= nth r (pre ++ l) 0) /\
    (forall j, (j < r)%nat -> nth j (pre ++ l) 0 < nth r (pre ++ l) 0).
Proof.
  induction l as [|x l IH]; intros pre best besti i Hlen Hlt Hbest Hle Hst;
    simpl.
  - rewrite app_nil_r, Nat.add_0_r, Hbest. repeat split; [lia|exact Hle|exact Hst].
  - assert (Hpre : pre ++ x :: l = (pre ++ [x]) ++ l)
      by (rewrite <- app_assoc; reflexivity).
    rewrite Hpre. replace (i + S (length l))%nat with (S i + length l)%nat by lia.
    assert (Hold : forall j, (j < i)%nat -> nth j (pre ++ [x]) 0 = nth j pre 0).
    { intros j Hj. apply app_nth1. lia. }
    assert (Hnew : nth i (pre ++ [x]) 0 = x).
    { rewrite app_nth2 by lia. rewrite Hlen, Nat.sub_diag. reflexivity. }
    destruct (gtb x best) eqn:E.
    + apply gtb_true_iff in E.
      apply IH.
      * rewrite length_app. simpl. lia.
      * lia.
      * exact Hnew.
      * intros j Hj. destruct (Nat.eq_dec j i) as [->|Hne].
        -- rewrite Hnew. apply Qle_refl.
        -- rewrite Hold by lia. eapply Qle_trans; [apply Hle; lia|].
           apply Qlt_le_weak. exact E.
      * intros j Hj. rewrite Hold by lia.
        eapply Qle_lt_trans; [apply Hle; lia|exact E].
    + apply gtb_false_iff in E.
      apply IH.
      * rewrite length_app. simpl. lia.
      * lia.
      * rewrite Hold by lia. exact Hbest.
      * intros j Hj. destruct (Nat.eq_dec j i) as [->|Hne].
        -- rewrite Hnew. exact E.
        -- rewrite Hold by lia. apply Hle. lia.
      * intros j Hj. rewrite Hold by lia. apply Hst. exact Hj.
Qed.

(** X4. The class of a row is the first position of its maximum score: the
    score there is at least every score of the row and strictly greater than
    every score before it, so a tie goes to the lowest class id. *)
Theorem row_class_first_maximum (row : list Q) :
  (5 < length row)%nat ->
  let scores := scores_of row in
  let k := row_class row in
  (k < length scores)%nat /\
  row_conf row = nth k scores 0 /\
  (forall j, (j < length scores)%nat -> nth j scores 0 <= nth k scores 0) /\
  (forall j, (j < k)%nat -> nth j scores 0 < nth k scores 0).
Proof.
  intros Hwf scores k.
  pose proof (well_formed_scores Hwf) as Hne.
  unfold k, row_conf, row_class. fold scores. fold scores in Hne.
  destruct scores as [|x l]; [contradiction|].
  simpl argmax. cbv iota beta.
  destruct (@argmax_from_first l [x] x 0%nat 1%nat) as [H1 [H2 H3]];
    try reflexivity; try lia.
  - intros j Hj. replace j with 0%nat by lia. apply Qle_refl.
  - simpl in *. repeat split; [lia|exact H2|exact H3].
Qed.

Lemma row_class_first_maximum_witness :
  let row := [1 # 2; 1 # 2; 2 # 10; 3 # 10; 1; 7 # 10; 1 # 10; 7 # 10] in
  row_class row = 0%nat /\ (row_class row < length (scores_of row))%nat.
Proof.
  intros row. split; [reflexivity|].
  apply (@row_class_first_maximum row). simpl. lia.
Defined.

Lemma filter_map_comm {A B : Type} (f : A -> B) (p : B -> bool) (l : list A) :
  filter p (map f l) = map f (filter (fun a => p (f a)) l).
Proof.
  induction l as [|a l IH]; simpl; [reflexivity|].
  destruct (p (f a)); simpl; rewrite IH; reflexivity.
Qed.

Lemma filter_filter_implied {A : Type} (p q : A -> bool) (l : list A) :
  (forall a, In a l -> q a = true -> p a = true) ->
  filter q (filter p l) = filter q l.
Proof.
  induction l as [|a l IH]; intros H; simpl; [reflexivity|].
  assert (IH' : filter q (filter p l) = filter q l).
  { apply IH. intros b Hb. apply H. right. exact Hb. }
  destruct (p a) eqn:Ep; simpl.
  - rewrite IH'. reflexivity.
  - destruct (q a) eqn:Eq; [|exact IH'].
    rewrite (H a (or_introl eq_refl) Eq) in Ep. discriminate.
Qed.

Lemma zip_detections_rows (width height : Z) (rows : list (list Q)) :
  zip_detections (map row_class rows) (map row_conf rows)
                 (map (row_box width height) rows)
  = map (detection_of_row width height) rows.
Proof.
  induction rows as [|row rows IH]; simpl; [reflexivity|].
  rewrite IH. reflexivity.
Qed.

Lemma accepted_well_formed (thr : Q) (row : list Q) :
  well_formed_row row -> accepted thr row = gtb (row_conf row) thr.
Proof.
  intros Hwf. unfold accepted.
  rewrite (row_confidence_well_formed Hwf). reflexivity.
Qed.

(** X5. Raising the confidence threshold only removes detections: for
    thresholds [lo <= hi] on the same rows, the detection set at [hi] is the
    detection set at [lo] with the detections of confidence at most [hi]
    taken out, the others in the same order. With [lo] = 0.2 and [hi] = 0.5
    this relates the video cell's decode to the still-image cell's. *)
Theorem decode_threshold_monotone (lo hi : Q) (width height : Z)
    (outs : list (list (list Q))) (acc_lo : Detections) :
  lo <= hi ->
  decode lo width height outs = Ok acc_lo ->
  exists acc_hi,
    decode hi width height outs = Ok acc_hi /\
    detection_set acc_hi
    = filter (fun d => gtb (det_conf d) hi) (detection_set acc_lo).
Proof.
  intros Hle H. pose proof (decode_outs_returns _ _ _ _ _ H) as Hwf.
  unfold decode in H.
  rewrite (decode_outs_spec lo width height no_detections Hwf) in H.
  injection H as <-.
  exists (append_rows width height no_detections
            (filter (accepted hi) (concat outs))).
  split; [apply decode_total; exact Hwf|].
  unfold detection_set. simpl. rewrite !zip_detections_rows.
  rewrite filter_map_comm. simpl. f_equal.
  apply Forall_concat_iff in Hwf. rewrite Forall_forall in Hwf.
  rewrite <- (@filter_filter_implied _ (accepted lo) (accepted hi)).
  - apply filter_ext_in. intros row Hrow. apply filter_In in Hrow.
    apply accepted_well_formed. apply Hwf. apply Hrow.
  - intros row Hin Hhi.
    rewrite (accepted_well_formed hi (Hwf _ Hin)) in Hhi.
    rewrite (accepted_well_formed lo (Hwf _ Hin)).
    apply gtb_true_iff in Hhi. apply gtb_true_iff.
    eapply Qle_lt_trans; eassumption.
Qed.

Lemma decode_threshold_monotone_witness :
  let outs := [[[1 # 2; 1 # 2; 2 # 10; 3 # 10; 1; 3 # 10; 1 # 10];
                [1 # 4; 1 # 4; 1 # 10; 1 # 10; 1; 2 # 10; 7 # 10]]] in
  exists acc_hi,
    decode_image 416 416 outs = Ok acc_hi /\
    detection_set acc_hi
    = filter (fun d => gtb (det_conf d) (1 # 2))
        [mkDetection 0 (3 # 10) (mkBox 166 146 83 124);
         mkDetection 1 (7 # 10) (mkBox 83 83 41 41)].
Proof.
  intros outs.
  apply (@decode_threshold_monotone (1 # 5) (1 # 2) 416 416 outs
           (mkDetections [0; 1]%nat [3 # 10; 7 # 10]
              [mkBox 166 146 83 124; mkBox 83 83 41 41])).
  - vm_compute. discriminate.
  - reflexivity.
Defined.

(** X6. How the rows are split over the output layers does not matter: the
    loop over [outs] does what it would do on one layer holding all the rows
    in order, errors included. *)
Theorem decode_layers_irrelevant (thr : Q) (width height : Z)
    (outs : list (list (list Q))) :
  decode thr width height outs = decode thr width height [concat outs].
Proof.
  unfold decode. rewrite !decode_outs_concat. simpl.
  rewrite app_nil_r. reflexivity.
Qed.

(** ** Decoder: geometry of the pixel box *)

(** [int(c - w/2)] in integer arithmetic. *)
Lemma int_center_minus_half (c w : Z) :
  int (inject_Z c - inject_Z w / 2) = ((2 * c - w) ÷ 2)%Z.
Proof.
  unfold int, Qminus, Qplus, Qopp, Qdiv, Qmult, Qinv, inject_Z.
  cbn [Qnum Qden Pos.mul].
  change (Z.pos (1 * 2)) with 2%Z.
  f_equal. lia.
Qed.

Lemma int_bounds (q : Q) (n : Z) :
  0 <= q -> q <= inject_Z n -> (0 <= int q <= n)%Z.
Proof.
  destruct q as [a b]. unfold Qle, int. simpl. intros Hlo Hhi.
  rewrite Z.quot_div_nonneg by lia.
  split.
  - apply Z.div_pos; lia.
  - apply Z.div_le_upper_bound; lia.
Qed.

Lemma scaled_bounds (d : Q) (n : Z) :
  0 <= d -> d <= 1 -> (0 <= n)%Z ->
  0 <= d * inject_Z n /\ d * inject_Z n <= inject_Z n.
Proof.
  intros Hlo Hhi Hn.
  assert (Hn' : 0 <= inject_Z n).
  { unfold Qle, inject_Z. simpl. lia. }
  split.
  - apply Qmult_le_0_compat; assumption.
  - rewrite <- (Qmult_1_l (inject_Z n)) at 2.
    apply Qmult_le_compat_r; assumption.
Qed.

(** Halving with truncation toward zero moves a value by less than one, and
    toward zero. *)
Lemma quot2_bounds (a : Z) :
  (-1 <= 2 * (a ÷ 2) - a <= 1)%Z /\
  (0 <= a -> 2 * (a ÷ 2) <= a)%Z /\
  (a <= 0 -> a <= 2 * (a ÷ 2))%Z.
Proof.
  pose proof (Z.quot_rem' a 2) as E.
  destruct (Z.le_ge_cases 0 a) as [H|H].
  - pose proof (Z.rem_bound_pos a 2 H ltac:(lia)). lia.
  - pose proof (Z.rem_bound_pos_neg a 2 ltac:(lia) H). lia.
Qed.


(** X8. For a row whose four geometry values are normalised (between 0 and
    1), the extent of the box is between 0 and the frame size, and the box is
    not clamped to the frame but cannot leave it by more than half a frame:
    [-width <= 2*x] and [2*(x + w) <= 3*width], likewise vertically. *)
Theorem box_within_half_frame (width height : Z) (d0 d1 d2 d3 : Q) :
  (0 <= width)%Z -> (0 <= height)%Z ->
  0 <= d0 -> d0 <= 1 -> 0 <= d1 -> d1 <= 1 ->
  0 <= d2 -> d2 <= 1 -> 0 <= d3 -> d3 <= 1 ->
  let b := box_of_values width height d0 d1 d2 d3 in
  (0 <= box_w b <= width)%Z /\ (0 <= box_h b <= height)%Z /\
  (- width <= 2 * box_x b)%Z /\ (2 * (box_x b + box_w b) <= 3 * width)%Z /\
  (- height <= 2 * box_y b)%Z /\ (2 * (box_y b + box_h b) <= 3 * height)%Z.
Proof.
  intros HW HH H0 H0' H1 H1' H2 H2' H3 H3' b.
  unfold b, box_of_values. cbn [box_x box_y box_w box_h].
  rewrite !int_center_minus_half.
  destruct (scaled_bounds H0 H0' HW) as [A0 A0'].
  destruct (scaled_bounds H1 H1' HH) as [A1 A1'].
  destruct (scaled_bounds H2 H2' HW) as [A2 A2'].
  destruct (scaled_bounds H3 H3' HH) as [A3 A3'].
  pose proof (int_bounds A0 A0') as B0. pose proof (int_bounds A1 A1') as B1.
  pose proof (int_bounds A2 A2') as B2. pose proof (int_bounds A3 A3') as B3.
  set (cx := int (d0 * inject_Z width)) in *.
  set (cy := int (d1 * inject_Z height)) in *.
  set (w := int (d2 * inject_Z width)) in *.
  set (h := int (d3 * inject_Z height)) in *.
  destruct (quot2_bounds (2 * cx - w)) as [Ax [Px Nx]].
  destruct (quot2_bounds (2 * cy - h)) as [Ay [Py Ny]].
  repeat split; lia.
Qed.

Lemma box_within_half_frame_witness :
  let b := box_of_values 416 416 (1 # 10) (9 # 10) 1 1 in
  b = mkBox (-167) 166 416 416 /\ (- 416 <= 2 * box_x b)%Z /\
  (2 * (box_y b + box_h b) <= 3 * 416)%Z.
Proof.
  intros b. split; [reflexivity|].
  destruct (@box_within_half_frame 416 416 (1 # 10) (9 # 10) 1 1)
    as [_ [_ [Hx [_ [_ Hy]]]]];
    try (vm_compute; discriminate).
  split; [exact Hx|exact Hy].
Defined.

(** ** Annotator: what is drawn, and when the loops raise *)

Lemma getitem_nth {A : Type} (l : list A) (i : nat) (d : A) :
  (i < length l)%nat -> getitem l i = Ok (nth i l d).
Proof.
  intros H. unfold getitem.
  destruct (nth_error l i) as [a|] eqn:E.
  - rewrite (nth_error_nth _ _ d E). reflexivity.
  - apply nth_error_None in E. lia.
Qed.

Lemma for_range_appends (step : list Draw -> nat -> result (list Draw))
    (g : nat -> list Draw) (range : list nat) :
  (forall i img, In i range -> step img i = Ok (img ++ g i)) ->
  forall img, for_range step img range = Ok (img ++ flat_map g range).
Proof.
  induction range as [|i range IH]; intros H img; simpl.
  - rewrite app_nil_r. reflexivity.
  - rewrite (H i img (or_introl eq_refl)). simpl.
    rewrite IH by (intros j img' Hj; apply H; right; exact Hj).
    rewrite <- app_assoc. reflexivity.
Qed.

Lemma for_range_ext (step step' : list Draw -> nat -> result (list Draw))
    (range : list nat) :
  (forall i img, In i range -> step img i = step' img i) ->
  forall img, for_range step img range = for_range step' img range.
Proof.
  induction range as [|i range IH]; intros H img; simpl; [reflexivity|].
  rewrite (H i img (or_introl eq_refl)).
  destruct (step' img i) as [img'|e]; simpl; [|reflexivity].
  apply IH. intros j img'' Hj. apply H. right. exact Hj.
Qed.

Lemma flat_map_if {A B : Type} (p : A -> bool) (g : A -> list B) (l : list A) :
  flat_map (fun a => if p a then g a else []) l = flat_map g (filter p l).
Proof.
  induction l as [|a l IH]; simpl; [reflexivity|].
  destruct (p a); simpl; rewrite IH; reflexivity.
Qed.

Lemma valid_class_id (classes : list String.string) (acc : Detections)
    (i : nat) :
  valid_detections classes acc -> (i < length (boxes acc))%nat ->
  (nth i (class_ids acc) O < length classes)%nat.
Proof.
  intros [Hc [_ Hv]] Hi. rewrite Forall_forall in Hv.
  apply Hv. apply nth_In. lia.
Qed.

Lemma annotate_video_step_ok (classes : list String.string)
    (colors : list Color) (acc : Detections) (indexes : list nat)
    (img : list Draw) (i : nat) :
  valid_detections classes acc -> (length classes <= length colors)%nat ->
  (i < length (boxes acc))%nat ->
  annotate_video_step classes colors acc indexes img i
  = Ok (img ++ if mem i indexes then video_drawing classes colors acc i
               else []).
Proof.
  intros Hv Hcol Hi. pose proof (@valid_class_id classes acc i Hv Hi) as Hk.
  destruct Hv as [Hc [Hf _]].
  unfold annotate_video_step.
  destruct (mem i indexes); [|rewrite app_nil_r; reflexivity].
  rewrite (@getitem_nth _ (boxes acc) i default_box Hi).
  rewrite (@getitem_nth _ (class_ids acc) i O) by lia.
  cbn [bind].
  rewrite (@getitem_nth _ classes _ String.EmptyString Hk).
  rewrite (@getitem_nth _ (confidences acc) i 0) by lia.
  rewrite (@getitem_nth _ colors (nth i (class_ids acc) O) default_color) by lia.
  reflexivity.
Qed.

Lemma annotate_image_step_ok (classes : list String.string)
    (colors : list Color) (acc : Detections) (indexes : list nat)
    (img : list Draw) (i : nat) :
  valid_detections classes acc -> (i < length (boxes acc))%nat ->
  (mem i indexes = true -> (i < length colors)%nat) ->
  annotate_image_step classes colors acc indexes img i
  = Ok (img ++ if mem i indexes then image_drawing classes colors acc i
               else []).
Proof.
  intros Hv Hi Hcol. pose proof (@valid_class_id classes acc i Hv Hi) as Hk.
  destruct Hv as [Hc [Hf _]].
  unfold annotate_image_step.
  destruct (mem i indexes); [|rewrite app_nil_r; reflexivity].
  rewrite (@getitem_nth _ (boxes acc) i default_box Hi).
  rewrite (@getitem_nth _ (class_ids acc) i O) by lia.
  cbn [bind].
  rewrite (@getitem_nth _ classes _ String.EmptyString Hk).
  rewrite (@getitem_nth _ colors i default_color) by (apply Hcol; reflexivity).
  reflexivity.
Qed.

Lemma in_visible (indexes : list nat) (n i : nat) :
  In i (visible indexes n) <-> (i < n)%nat /\ In i indexes.
Proof.
  unfold visible. rewrite filter_In, in_seq, mem_true_iff.
  split; intros [H1 H2]; split; try assumption; lia.
Qed.

(** The video loop on valid detections, whatever the indexes. *)
Lemma annotate_video_value (classes : list String.string)
    (colors : list Color) (acc : Detections) (indexes : list nat) :
  valid_detections classes acc -> (length classes <= length colors)%nat ->
  annotate_video classes colors acc indexes
  = Ok (flat_map (video_drawing classes colors acc)
          (visible indexes (length (boxes acc)))).
Proof.
  intros Hv Hcol. unfold annotate_video, visible.
  rewrite <- flat_map_if.
  apply (for_range_appends
           (annotate_video_step classes colors acc indexes)
           (fun i => if mem i indexes then video_drawing classes colors acc i
                     else [])).
  intros i img Hi. apply in_seq in Hi.
  apply annotate_video_step_ok; [assumption|assumption|lia].
Qed.

Lemma annotate_image_value (classes : list String.string)
    (colors : list Color) (acc : Detections) (indexes : list nat) :
  valid_detections classes acc ->
  (forall i, In i (visible indexes (length (boxes acc))) ->
     (i < length colors)%nat) ->
  annotate_image classes colors acc indexes
  = Ok (flat_map (image_drawing classes colors acc)
          (visible indexes (length (boxes acc)))).
Proof.
  intros Hv Hcol. unfold annotate_image, visible.
  rewrite <- flat_map_if.
  apply (for_range_appends
           (annotate_image_step classes colors acc indexes)
           (fun i => if mem i indexes then image_drawing classes colors acc i
                     else [])).
  intros i img Hi. apply in_seq in Hi.
  apply annotate_image_step_ok; [assumption|lia|].
  intros Hm. apply Hcol. apply in_visible.
  split; [lia|apply mem_true_iff; exact Hm].
Qed.

Lemma flat_map_drawing_length (g : nat -> list Draw) (l : list nat) :
  (forall i, length (g i) = 2%nat) ->
  length (flat_map g l) = (2 * length l)%nat.
Proof.
  intros H. induction l as [|i l IH]; simpl; [reflexivity|].
  rewrite length_app, H, IH. lia.
Qed.





Lemma mem_ext (i : nat) (a b : list nat) :
  (In i a <-> In i b) -> mem i a = mem i b.
Proof.
  intros H. destruct (mem i a) eqn:Ea, (mem i b) eqn:Eb; try reflexivity.
  - apply mem_true_iff in Ea. apply H in Ea. apply mem_true_iff in Ea. congruence.
  - apply mem_true_iff in Eb. apply H in Eb. apply mem_true_iff in Eb. congruence.
Qed.

(** X11. The annotation loops use [indexes] only through the test
    [i in indexes] for the positions [i] of [range(len(boxes))]: two index
    lists with the same members below [len(boxes)] give the same result,
    drawings and errors alike. The order of the retained indices, repeated
    indices and indices past the end have no effect. *)
Theorem annotate_depends_on_membership (classes : list String.string)
    (colors : list Color) (acc : Detections) (indexes indexes' : list nat) :
  (forall i, (i < length (boxes acc))%nat ->
     (In i indexes <-> In i indexes')) ->
  annotate_image classes colors acc indexes
  = annotate_image classes colors acc indexes' /\
  annotate_video classes colors acc indexes
  = annotate_video classes colors acc indexes'.
Proof.
  intros H.
  assert (Hm : forall i, In i (seq 0 (length (boxes acc))) ->
                         mem i indexes = mem i indexes').
  { intros i Hi. apply in_seq in Hi. apply mem_ext. apply H. lia. }
  split.
  - unfold annotate_image. apply for_range_ext. intros i img Hi.
    unfold annotate_image_step. rewrite (Hm i Hi). reflexivity.
  - unfold annotate_video. apply for_range_ext. intros i img Hi.
    unfold annotate_video_step. rewrite (Hm i Hi). reflexivity.
Qed.

Lemma annotate_depends_on_membership_witness :
  let classes := ["person"]%string in
  let colors := [(0, 0, 0)] in
  let acc := mkDetections [0; 0]%nat [9 # 10; 8 # 10]
               [mkBox 0 0 10 10; mkBox 50 50 10 10] in
  annotate_image classes colors acc [1; 0]%nat
  = annotate_image classes colors acc [0; 0; 5; 1]%nat.
Proof.
  intros classes colors acc.
  apply (@annotate_depends_on_membership classes colors acc
           [1; 0]%nat [0; 0; 5; 1]%nat).
  intros i Hi. simpl in Hi. simpl. split; intros Hin; lia.
Defined.

Lemma filter_none {A : Type} (f : A -> bool) (l : list A) :
  (forall a, In a l -> f a = false) -> filter f l = [].
Proof.
  induction l as [|a l IH]; intros H; simpl; [reflexivity|].
  rewrite (H a (or_introl eq_refl)). apply IH.
  intros b Hb. apply H. right. exact Hb.
Qed.

Lemma decode_nothing_accepted (thr : Q) (width height : Z)
    (outs : list (list (list Q))) :
  (forall row, In row (concat outs) ->
     (5 < length row)%nat /\ row_conf row <= thr) ->
  decode thr width height outs = Ok no_detections.
Proof.
  intros H.
  rewrite decode_total.
  - rewrite filter_none; [reflexivity|].
    intros row Hrow. destruct (H row Hrow) as [Hwf Hle].
    exact (low_confidence_rejected Hwf Hle).
  - apply Forall_concat_iff. apply Forall_forall.
    intros row Hrow. apply (H row Hrow).
Qed.

(** X12. A frame on which no row gets over the decode threshold is a no-op:
    the still-image cell (threshold 0.5) and a turn of the video loop
    (threshold 0.2) both return without drawing anything and without
    raising, whatever the class names and the colour table are. *)
Theorem nothing_detected_nothing_drawn (classes : list String.string)
    (colors : list Color) (width height : Z) (outs : list (list (list Q))) :
  (forall row, In row (concat outs) -> (5 < length row)%nat) ->
  ((forall row, In row (concat outs) -> row_conf row <= 1 # 2) ->
   image_cell classes colors width height outs = Ok []) /\
  ((forall row, In row (concat outs) -> row_conf row <= 1 # 5) ->
   process_frame classes colors (Some (mkFrame height width outs)) = Ok []).
Proof.
  intros Hwf. split; intros Hlow.
  - unfold image_cell, decode_image.
    rewrite decode_nothing_accepted; [reflexivity|].
    intros row Hrow. split; [apply Hwf|apply Hlow]; exact Hrow.
  - unfold process_frame, decode_video. simpl.
    rewrite decode_nothing_accepted; [reflexivity|].
    intros row Hrow. split; [apply Hwf|apply Hlow]; exact Hrow.
Qed.

Lemma nothing_detected_nothing_drawn_witness :
  image_cell ["person"; "bicycle"]%string [] 416 416
    [[[1 # 2; 1 # 2; 2 # 10; 3 # 10; 1; 1 # 2; 1 # 10]]; []] = Ok [].
Proof.
  destruct (@nothing_detected_nothing_drawn ["person"; "bicycle"]%string []
              416 416 [[[1 # 2; 1 # 2; 2 # 10; 3 # 10; 1; 1 # 2; 1 # 10]]; []])
    as [H _].
  - intros row [<-|[]]. simpl. lia.
  - apply H. intros row [<-|[]]. vm_compute. discriminate.
Defined.

(** The accumulators the decode loop returns on rows of K scores each are
    valid for any list of K class names. *)
Lemma decode_valid_detections (classes : list String.string) (thr : Q)
    (width height : Z) (outs : list (list (list Q))) (acc : Detections) :
  (forall row, In row (concat outs) ->
     length row = (5 + length classes)%nat) ->
  decode thr width height outs = Ok acc ->
  valid_detections classes acc.
Proof.
  intros Hshape H. pose proof (decode_outs_returns _ _ _ _ _ H) as Hwf.
  unfold decode in H.
  rewrite (decode_outs_spec thr width height no_detections Hwf) in H.
  injection H as <-. unfold valid_detections. simpl.
  rewrite !length_map. split; [reflexivity|]. split; [reflexivity|].
  apply Forall_forall. intros k Hk. apply in_map_iff in Hk.
  destruct Hk as [row [<- Hrow]]. apply filter_In in Hrow.
  destruct Hrow as [Hin _].
  apply Forall_concat_iff in Hwf. rewrite Forall_forall in Hwf.
  pose proof (well_formed_scores (Hwf _ Hin)) as Hne.
  assert (HK : length (scores_of row) = length classes).
  { unfold scores_of. rewrite length_skipn, (Hshape _ Hin). lia. }
  unfold row_class.
  destruct (argmax (scores_of row)) as [i|e] eqn:E.
  - apply argmax_in_range in E. lia.
  - destruct (scores_of row); [contradiction|discriminate].
Qed.





(** ** Frame loop: counters, order of the calls, ways out *)

Lemma video_loop_quiet (classes : list String.string) (colors : list Color)
    (pre : list Tick) :
  Forall (quiet classes colors) pre ->
  forall rest frame_id events,
    video_loop classes colors (pre ++ rest) frame_id events
    = video_loop classes colors rest (frame_id + length pre)
        (events ++ turns (length pre)).
Proof.
  intros Hpre.
  induction Hpre as [|x pre [Hx Hk] Hpre IH]; intros rest frame_id events.
  - simpl. rewrite Nat.add_0_r, app_nil_r. reflexivity.
  - cbn [app video_loop length turns].
    unfold completes in Hx.
    destruct (process_frame classes colors (tick_frame x)); [|discriminate].
    apply Z.eqb_neq in Hk. rewrite Hk.
    rewrite IH. f_equal; [lia|].
    rewrite <- !app_assoc. reflexivity.
Qed.

Lemma video_loop_counts (classes : list String.string) (colors : list Color)
    (ticks : list Tick) :
  forall frame_id events,
    let r := video_loop classes colors ticks frame_id events in
    let crashed := match run_status r with Crashed _ => 1%nat | _ => 0%nat end in
    (run_frame_id r <= frame_id + length ticks)%nat /\
    (count_event CapRead (run_events r) + frame_id
     = count_event CapRead events + run_frame_id r)%nat /\
    (count_event ImShow (run_events r) + frame_id + crashed
     = count_event ImShow events + run_frame_id r)%nat /\
    (count_event WaitKey (run_events r) + frame_id + crashed
     = count_event WaitKey events + run_frame_id r)%nat.
Proof.
  induction ticks as [|tk ticks IH]; intros frame_id events; simpl.
  - repeat split; lia.
  - destruct (process_frame classes colors (tick_frame tk)) as [drawn|e]; simpl.
    + destruct (tick_key tk =? ESC)%Z; simpl.
      * rewrite !count_event_app. count_closed. repeat split; lia.
      * destruct (IH (S frame_id) ((events ++ [CapRead]) ++ [ImShow; WaitKey]))
          as [H0 [H1 [H2 H3]]].
        rewrite !count_event_app in H1, H2, H3.
        revert H1 H2 H3. count_closed. intros H1 H2 H3.
        repeat split; lia.
    + rewrite !count_event_app. count_closed. repeat split; lia.
Qed.

(** X15. The frame counter and the calls stay in step, whatever the outside
    world supplies: [frame_id] is the number of [cap.read()] calls and never
    exceeds the number of turns; every frame read is shown once and followed
    by one key poll, except the frame of a turn that raised, which is counted
    but neither shown nor followed by a poll. *)
Theorem frame_counter_matches_calls (classes : list String.string)
    (colors : list Color) (ticks : list Tick) :
  let r := video_cell classes colors ticks in
  let crashed := match run_status r with Crashed _ => 1%nat | _ => 0%nat end in
  (run_frame_id r <= length ticks)%nat /\
  count_event CapRead (run_events r) = run_frame_id r /\
  (count_event ImShow (run_events r) + crashed = run_frame_id r)%nat /\
  count_event WaitKey (run_events r) = count_event ImShow (run_events r).
Proof.
  intros r crashed.
  destruct (video_loop_counts classes colors ticks 0 []) as [H0 [H1 [H2 H3]]].
  fold (video_cell classes colors ticks) in H0, H1, H2, H3. fold r in H0, H1, H2, H3.
  fold crashed in H2, H3.
  change (count_event CapRead []) with 0%nat in H1.
  change (count_event ImShow []) with 0%nat in H2.
  change (count_event WaitKey []) with 0%nat in H3.
  repeat split; lia.
Qed.

(** X16. The teardown calls happen at most once and only on [break]: for
    every sequence of turns, [cap.release()] and [destroyAllWindows()] are
    each called once if the loop ended on the stop key, and not at all if an
    exception left the cell or the loop is still running. *)
Theorem teardown_only_on_break (classes : list String.string)
    (colors : list Color) (ticks : list Tick) :
  let r := video_cell classes colors ticks in
  (run_status r = Stopped ->
   count_event CapRelease (run_events r) = 1%nat /\
   count_event DestroyAllWindows (run_events r) = 1%nat) /\
  (run_status r <> Stopped ->
   count_event CapRelease (run_events r) = 0%nat /\
   count_event DestroyAllWindows (run_events r) = 0%nat).
Proof.
  intros r.
  destruct (video_loop_releases classes colors ticks 0 []) as [H1 H2].
  fold (video_cell classes colors ticks) in H1, H2. fold r in H1, H2.
  change (count_event CapRelease []) with 0%nat in H1.
  change (count_event DestroyAllWindows []) with 0%nat in H2.
  split; intros Hs.
  - rewrite Hs in H1, H2. split; [exact H1|exact H2].
  - destruct (run_status r); [|contradiction|]; split; assumption.
Qed.

(** X17. Only the stop key ends the loop: as long as the turns complete and
    [waitKey] returns anything but 27, the loop is still running after them,
    having read one frame per turn and released nothing. *)
Theorem loop_runs_without_stop_key (classes : list String.string)
    (colors : list Color) (ticks : list Tick) :
  Forall (quiet classes colors) ticks ->
  video_cell classes colors ticks
  = mkRun Running (length ticks) (turns (length ticks)).
Proof.
  intros H. unfold video_cell.
  rewrite <- (app_nil_r ticks) at 1.
  rewrite (@video_loop_quiet classes colors ticks H [] 0%nat []).
  reflexivity.
Qed.

Lemma loop_runs_without_stop_key_witness :
  let classes := ["person"]%string in
  let colors := [(0, 0, 0)] in
  let frame := Some (mkFrame 480 640 [[[1 # 2; 1 # 2; 2 # 10; 3 # 10; 1; 9 # 10]]]) in
  video_cell classes colors [mkTick frame (-1); mkTick frame 113]
  = mkRun Running 2 (turns 2).
Proof.
  intros classes colors frame.
  apply (@loop_runs_without_stop_key classes colors
           [mkTick frame (-1); mkTick frame 113]).
  repeat constructor; discriminate.
Defined.

(** X18. An exception ends the loop at the turn that raised it: after turns
    that completed without the stop key, a turn whose processing raises [e]
    leaves the cell with [e]; its frame has been read and counted, nothing
    was shown for it, its key is not polled, and no later turn runs. *)
Theorem loop_stops_at_first_exception (classes : list String.string)
    (colors : list Color) (pre : list Tick) (tk : Tick) (post : list Tick)
    (e : exn) :
  Forall (quiet classes colors) pre ->
  process_frame classes colors (tick_frame tk) = Raise e ->
  video_cell classes colors (pre ++ tk :: post)
  = mkRun (Crashed e) (S (length pre)) (turns (length pre) ++ [CapRead]).
Proof.
  intros Hpre He. unfold video_cell.
  rewrite (@video_loop_quiet classes colors pre Hpre (tk :: post) 0%nat []).
  cbn [video_loop]. rewrite He. reflexivity.
Qed.

Lemma loop_stops_at_first_exception_witness :
  let classes := ["person"]%string in
  let colors := [(0, 0, 0)] in
  let frame := Some (mkFrame 480 640 [[[1 # 2; 1 # 2; 2 # 10; 3 # 10; 1; 9 # 10]]]) in
  video_cell classes colors
    ([mkTick frame (-1)] ++ mkTick None 27 :: [mkTick frame 27])
  = mkRun (Crashed AttributeError) 2 (turns 1 ++ [CapRead]).
Proof.
  intros classes colors frame.
  apply (@loop_stops_at_first_exception classes colors [mkTick frame (-1)]
           (mkTick None 27) [mkTick frame 27] AttributeError).
  - repeat constructor; discriminate.
  - reflexivity.
Defined.

(** ** Session set-up: class names and output layers *)

Lemma lstrip_starts (s : String.string) : starts_with_space (lstrip s) = false.
Proof.
  induction s as [|c s IH]; simpl; [reflexivity|].
  destruct (isspace c) eqn:E; [exact IH|]. simpl. exact E.
Qed.

Lemma rstrip_ends (s : String.string) : ends_with_space (rstrip s) = false.
Proof.
  induction s as [|c s IH]; simpl; [reflexivity|].
  destruct (rstrip s) as [|d r] eqn:E.
  - destruct (isspace c) eqn:Ec; simpl; [reflexivity|exact Ec].
  - exact IH.
Qed.

Lemma rstrip_starts (s : String.string) :
  starts_with_space s = false -> starts_with_space (rstrip s) = false.
Proof.
  destruct s as [|c s]; simpl; [reflexivity|]. intros Hc.
  destruct (rstrip s); [rewrite Hc|]; simpl; exact Hc.
Qed.

Lemma lstrip_fixed (s : String.string) :
  starts_with_space s = false -> lstrip s = s.
Proof.
  destruct s as [|c s]; simpl; [reflexivity|]. intros ->. reflexivity.
Qed.

Lemma rstrip_fixed (s : String.string) :
  ends_with_space s = false -> rstrip s = s.
Proof.
  induction s as [|c s IH]; [reflexivity|].
  intros H. cbn [rstrip].
  destruct s as [|d s'].
  - simpl in *. rewrite H. reflexivity.
  - rewrite IH by exact H. reflexivity.
Qed.

(** X19. Class names are loaded one per line, trimmed: the class list is as
    long as the list of lines (a blank line gives an empty name and still
    takes a class id), no name starts or ends with whitespace, a line made of
    whitespace only gives the empty name, and a line with no surrounding
    whitespace is kept as it is, so loading what was loaded changes
    nothing. *)
Theorem load_classes_trims (lines : list String.string) :
  length (load_classes lines) = length lines /\
  Forall (fun name => starts_with_space name = false /\
                      ends_with_space name = false) (load_classes lines) /\
  (forall line, lstrip line = String.EmptyString ->
     strip line = String.EmptyString) /\
  (forall line, starts_with_space line = false ->
     ends_with_space line = false -> strip line = line) /\
  load_classes (load_classes lines) = load_classes lines.
Proof.
  assert (Hclean : forall s, starts_with_space (strip s) = false /\
                             ends_with_space (strip s) = false).
  { intros s. unfold strip. split.
    - apply rstrip_starts. apply lstrip_starts.
    - apply rstrip_ends. }
  assert (Hfix : forall s, starts_with_space s = false ->
                           ends_with_space s = false -> strip s = s).
  { intros s H1 H2. unfold strip. rewrite (lstrip_fixed s H1).
    apply rstrip_fixed. exact H2. }
  split; [apply length_map|]. split; [|split; [|split]].
  - apply Forall_forall. intros name Hin. apply in_map_iff in Hin.
    destruct Hin as [line [<- _]]. apply Hclean.
  - intros line H. unfold strip. rewrite H. reflexivity.
  - exact Hfix.
  - unfold load_classes. rewrite map_map. apply map_ext.
    intros line. apply Hfix; apply Hclean.
Qed.

Lemma getitem_z_ok_iff {A : Type} (l : list A) (k : Z) :
  (exists a, getitem_z l k = Ok a) <->
  (- Z.of_nat (length l) <= k < Z.of_nat (length l))%Z.
Proof.
  unfold getitem_z, getitem.
  destruct (0 <=? k)%Z eqn:E0.
  - apply Z.leb_le in E0.
    destruct (nth_error l (Z.to_nat k)) as [a|] eqn:En.
    + split; [intros _|intros _; eauto].
      assert (nth_error l (Z.to_nat k) <> None) by congruence.
      apply nth_error_Some in H. lia.
    + apply nth_error_None in En. split; [intros [a H]; discriminate|lia].
  - apply Z.leb_gt in E0.
    destruct (- Z.of_nat (length l) <=? k)%Z eqn:E1.
    + apply Z.leb_le in E1.
      destruct (nth_error l (Z.to_nat (Z.of_nat (length l) + k))) as [a|] eqn:En.
      * split; [lia|intros _; eauto].
      * apply nth_error_None in En. lia.
    + apply Z.leb_gt in E1. split; [intros [a H]; discriminate|lia].
Qed.

Lemma getitem_z_positive {A : Type} (l : list A) (id : Z) (d : A) :
  (1 <= id <= Z.of_nat (length l))%Z ->
  getitem_z l (id - 1) = Ok (nth (Z.to_nat (id - 1)) l d).
Proof.
  intros H. unfold getitem_z.
  assert (E : (0 <=? id - 1)%Z = true) by (apply Z.leb_le; lia).
  rewrite E. apply getitem_nth. lia.
Qed.

Lemma comprehension_ok {A B : Type} (f : A -> result B) (g : A -> B)
    (l : list A) :
  (forall a, In a l -> f a = Ok (g a)) -> comprehension f l = Ok (map g l).
Proof.
  induction l as [|a l IH]; intros H; simpl; [reflexivity|].
  rewrite (H a (or_introl eq_refl)). simpl.
  rewrite IH by (intros b Hb; apply H; right; exact Hb). reflexivity.
Qed.

Lemma comprehension_returns {A B : Type} (f : A -> result B) (l : list A) :
  forall out, comprehension f l = Ok out ->
    length out = length l /\ forall a, In a l -> exists b, f a = Ok b.
Proof.
  induction l as [|a l IH]; intros out H; simpl in H.
  - injection H as <-. split; [reflexivity|contradiction].
  - destruct (f a) as [b|e] eqn:Ea; simpl in H; [|discriminate].
    destruct (comprehension f l) as [bs|e] eqn:El; simpl in H; [|discriminate].
    injection H as <-. destruct (IH bs eq_refl) as [Hlen Hall].
    split; [simpl; lia|].
    intros x [<-|Hx]; [eauto|apply Hall; exact Hx].
Qed.

(** X20. The output layers are named through 1-based ids. When every id
    lies between 1 and the number of layer names, the comprehension returns
    one name per id, [layer_names[id - 1]]. When it returns at all, every
    entry held an id between [1 - n] and [n]: an id from [1 - n] to 0 does
    not raise but is read from the end of the list (id 0 names the last
    layer), while an id above [n] or an entry with no id makes the
    comprehension fail. *)
Theorem output_layers_by_id (layer_names : list String.string)
    (unconnected : list (list Z)) :
  let n := length layer_names in
  ((forall i, In i unconnected ->
      exists id rest, i = id :: rest /\ (1 <= id <= Z.of_nat n)%Z) ->
   output_layers layer_names unconnected
   = Ok (map (fun i => nth (Z.to_nat (hd 0%Z i - 1)) layer_names
                           String.EmptyString) unconnected)) /\
  (forall out, output_layers layer_names unconnected = Ok out ->
     length out = length unconnected /\
     forall i, In i unconnected ->
       exists id rest, i = id :: rest /\ accepted_layer_id n id) /\
  ((0 < n)%nat ->
   output_layers layer_names [[0%Z]]
   = Ok [nth (n - 1) layer_names String.EmptyString]).
Proof.
  intros n. split; [|split].
  - intros H. unfold output_layers. apply comprehension_ok.
    intros i Hi. destruct (H i Hi) as [id [rest [-> Hid]]].
    simpl. apply getitem_z_positive. exact Hid.
  - intros out H. unfold output_layers in H.
    apply comprehension_returns in H. destruct H as [Hlen Hall].
    split; [exact Hlen|].
    intros i Hi. destruct (Hall i Hi) as [name Hname].
    destruct i as [|id rest]; [discriminate|].
    exists id, rest. split; [reflexivity|].
    simpl in Hname.
    pose proof (proj1 (getitem_z_ok_iff layer_names (id - 1))
                  (ex_intro _ name Hname)) as Hr.
    unfold accepted_layer_id. fold n in Hr. lia.
  - intros Hn. unfold output_layers. simpl. unfold getitem_z.
    assert (E1 : (0 <=? -1)%Z = false) by reflexivity.
    assert (E2 : (- Z.of_nat (length layer_names) <=? -1)%Z = true)
      by (apply Z.leb_le; fold n; lia).
    rewrite E1, E2.
    replace (Z.to_nat (Z.of_nat (length layer_names) + -1))
      with (n - 1)%nat by (fold n; lia).
    rewrite (@getitem_nth _ layer_names (n - 1) String.EmptyString)
      by (fold n; lia).
    reflexivity.
Qed.

Lemma output_layers_by_id_witness :
  let layer_names := ["conv_0"; "yolo_82"; "yolo_94"; "yolo_106"]%string in
  output_layers layer_names [[2%Z]; [3%Z]; [4%Z]]
  = Ok ["yolo_82"; "yolo_94"; "yolo_106"]%string.
Proof.
  intros layer_names.
  destruct (@output_layers_by_id layer_names [[2%Z]; [3%Z]; [4%Z]])
    as [H _].
  apply H. intros i Hi. simpl in Hi.
  destruct Hi as [<-|[<-|[<-|[]]]]; eexists; eexists;
    (split; [reflexivity|simpl; lia]).
Defined.
